(** * gpt4all TypeScript bindings: [gpt4all.js]

    A shallow embedding of [src/gpt4all-bindings/typescript/src/gpt4all.js]
    ([loadModel], [createCompletion], [createCompletionStream],
    [createCompletionGenerator]) and the properties its specification states
    about it.

    Conventions of the embedding.
    - A JavaScript object used as a bag of options is a [gmap string JSValue];
      object spread [{...a, ...b}] is the union in which [b] wins.
    - A JavaScript string is a [string]; its characters stand for UTF-16 code
      units, so [String.length] is the [.length] property.
    - A number is an integer [Z] in JavaScript's safe range, up to
      2^53 - 1 in absolute value (the options of this file are integers);
      other numbers are outside the model.
    - Everything the file does to the outside world (console, Node stream,
      the caller's hook, the model provider, the native addon, the model
      resolver) is recorded, in the order it happens, as a list of events.
    - A promise is represented by the way it settles, an [Outcome].
    - A call of [provider.generate] settles: it is a finite tree of callback
      calls. The caller's hook returns normally.
    - The producer never waits for the consumer of the stream. When the
      reads of the consumer happen relative to the pushes is a schedule, a
      parameter of what the generator yields. *)

From Stdlib Require Import ZArith Lia Ascii.
From stdpp Require Import base option list strings gmap pretty.

Open Scope string_scope.
Open Scope list_scope.

(** ** JavaScript values *)

Inductive JSValue :=
| VUndefined
| VNull
| VBool (b : bool)
| VNum (n : Z)
| VStr (s : string).

(** [ToBoolean]: the test of [if (v)]. *)
Definition truthy (v : JSValue) : bool :=
  match v with
  | VUndefined | VNull => false
  | VBool b => b
  | VNum n => negb (n =? 0)%Z
  | VStr s => negb (String.eqb s "")
  end.

(** [v === false]. *)
Definition is_false (v : JSValue) : bool :=
  match v with
  | VBool false => true
  | _ => false
  end.

(** [typeof v === "string"]. *)
Definition is_string (v : JSValue) : bool :=
  match v with
  | VStr _ => true
  | _ => false
  end.

(** [v === s] for a string literal [s]. *)
Definition eq_str (v : JSValue) (s : string) : bool :=
  match v with
  | VStr s' => String.eqb s' s
  | _ => false
  end.

(** [ToString], as used by ["..." + v]. A number is printed in plain
    decimal, which is JavaScript's conversion for the safe integers (see
    [printable]). *)
Definition to_string (v : JSValue) : string :=
  match v with
  | VUndefined => "undefined"
  | VNull => "null"
  | VBool true => "true"
  | VBool false => "false"
  | VNum n => pretty n
  | VStr s => s
  end.

(** What is thrown, or what a promise rejects with. *)
Inductive Thrown :=
| ErrorObj (name message : string)
| ThrownValue (v : JSValue).

(** [Error(msg)]. *)
Definition Error (msg : string) : Thrown := ErrorObj "Error" msg.

(** What [assert.ok(false, msg)] throws. *)
Definition AssertionError (msg : string) : Thrown := ErrorObj "AssertionError" msg.

(** The settled state of a promise. *)
Inductive Outcome (A : Type) :=
| Resolved (a : A)
| Rejected (e : Thrown).
Arguments Resolved {A} a.
Arguments Rejected {A} e.

(** ** Objects *)

(** [o.k]: a missing property reads as [undefined]. *)
Definition get (o : gmap string JSValue) (k : string) : JSValue :=
  default VUndefined (o !! k).

(** [{...a, ...b}]. *)
Definition spread (a b : gmap string JSValue) : gmap string JSValue := b ∪ a.

(** ** Strings: [split] and [join] *)

(** [s.split(sep)] for a one-character separator. *)
Fixpoint split (sep : ascii) (s : string) : list string :=
  match s with
  | EmptyString => [EmptyString]
  | String c s' =>
      if Ascii.eqb c sep then EmptyString :: split sep s'
      else match split sep s' with
           | [] => [String c EmptyString]
           | seg :: segs => String c seg :: segs
           end
  end.

(** [l.join(sep)]. *)
Fixpoint join (sep : string) (l : list string) : string :=
  match l with
  | [] => EmptyString
  | [x] => x
  | x :: l' => x +:+ sep +:+ join sep l'
  end.

(** ** What [gpt4all.js] imports

    [node:fs], the native addon, [util.js], [config.js] and [models.js] are
    not part of the source; the file is verified against any implementation
    of them. *)

(** The options object handed to [retrieveModel]. *)
Record RetrieveOptions := {
  ro_modelPath : JSValue;
  ro_modelConfigFile : JSValue;
  ro_allowDownload : JSValue;
  ro_verbose : JSValue;
}.

(** [llmOptions], the object handed to [new LLModel]. *)
Record LLMOptions := {
  model_name : string;
  model_path : JSValue;
  library_path : string;
  device : JSValue;
  nCtx : JSValue;
  ngl : JSValue;
}.

Class Imports := {
  (** the native model handle *)
  LLModel : Type;
  (** [new LLModel(llmOptions)]: the handle, or what the constructor throws *)
  LLModel_new : LLMOptions -> Thrown + LLModel;
  (** [existsSync] of [node:fs] *)
  existsSync : string -> bool;
  (** [retrieveModel] of [util.js]: the model configuration, or a rejection *)
  retrieveModel : string -> RetrieveOptions -> Thrown + gmap string JSValue;
  (** [appendBinSuffixIfMissing] of [util.js] *)
  appendBinSuffixIfMissing : string -> string;
  (** constants of [config.js] *)
  DEFAULT_DIRECTORY : string;
  DEFAULT_LIBRARIES_DIRECTORY : string;
  DEFAULT_PROMPT_CONTEXT : gmap string JSValue;
}.

(** Modelled from the spec: the classes [InferenceModel] and [EmbeddingModel]
    of [models.js] are missing; a wrapper is the pair its constructor is
    given, the native handle and the model configuration. *)
Inductive Model `{Imports} :=
| InferenceModel (llmodel : LLModel) (config : gmap string JSValue)
| EmbeddingModel (llmodel : LLModel) (config : gmap string JSValue).

(** ** [loadModel] *)

(** What [loadModel] does to the outside world. *)
Inductive LoadEvent :=
| Retrieve (modelName : string) (opts : RetrieveOptions)
| DebugCreating (llmOptions : LLMOptions) (modelConfig : gmap string JSValue)
| NewLLModel (llmOptions : LLMOptions).

Section LoadModel.
Context `{Imports}.

(** The defaults written out in [loadModel]. *)
Definition defaultLoadOptions : gmap string JSValue :=
  <["modelPath" := VStr DEFAULT_DIRECTORY]>
  (<["librariesPath" := VStr DEFAULT_LIBRARIES_DIRECTORY]>
  (<["type" := VStr "inference"]>
  (<["allowDownload" := VBool true]>
  (<["verbose" := VBool false]>
  (<["device" := VStr "cpu"]>
  (<["nCtx" := VNum 2048]>
  (<["ngl" := VNum 100]> ∅))))))).

(** [const loadOptions = { modelPath: ..., ..., ...options }]. *)
Definition loadOptions (options : gmap string JSValue) : gmap string JSValue :=
  spread defaultLoadOptions options.

(** [librariesPath.split(";").filter(existsSync).join(";")]. *)
Definition existingPaths (librariesPath : string) : string :=
  join ";" (filter (λ p, existsSync p = true) (split ";"%char librariesPath)).

Definition retrieveOptions (lo : gmap string JSValue) : RetrieveOptions :=
  {| ro_modelPath := get lo "modelPath";
     ro_modelConfigFile := get lo "modelConfigFile";
     ro_allowDownload := get lo "allowDownload";
     ro_verbose := get lo "verbose" |}.

Definition llmOptions (modelName : string) (lo : gmap string JSValue)
    (existing : string) : LLMOptions :=
  {| model_name := appendBinSuffixIfMissing modelName;
     model_path := get lo "modelPath";
     library_path := existing;
     device := get lo "device";
     nCtx := get lo "nCtx";
     ngl := get lo "ngl" |}.

(** [async function loadModel(modelName, options = {})]: the way the
    returned promise settles, and what happened on the way, in order. *)
Definition loadModel (modelName : string) (options : option (gmap string JSValue))
    : Outcome Model * list LoadEvent :=
  let options := default ∅ options in
  let lo := loadOptions options in
  let t0 := [Retrieve modelName (retrieveOptions lo)] in
  match retrieveModel modelName (retrieveOptions lo) with
  | inl e => (Rejected e, t0)
  | inr modelConfig =>
      match get lo "librariesPath" with
      | VStr librariesPath =>
          let opts := llmOptions modelName lo (existingPaths librariesPath) in
          let t1 :=
            if truthy (get lo "verbose")
            then t0 ++ [DebugCreating opts modelConfig] else t0 in
          let t2 := t1 ++ [NewLLModel opts] in
          match LLModel_new opts with
          | inl e => (Rejected e, t2)
          | inr llmodel =>
              if eq_str (get lo "type") "embedding"
              then (Resolved (EmbeddingModel llmodel modelConfig), t2)
              else if eq_str (get lo "type") "inference"
              then (Resolved (InferenceModel llmodel modelConfig), t2)
              else (Rejected (Error ("Invalid model type: " +:+ to_string (get lo "type"))), t2)
          end
      | _ => (Rejected (AssertionError "Libraries path should be a string"), t0)
      end
  end.

End LoadModel.

(** ** Completions: data *)

(** The arguments of the per-token callback, [(tokenId, text, fullText)]. *)
Record TokenEvent := {
  tokenId : Z;
  text : string;
  fullText : string;
}.

Record Usage := {
  prompt_tokens : nat;
  completion_tokens : nat;
  total_tokens : nat;
}.

Record Message := {
  role : string;
  content : string;
}.

(** The object [createCompletion] resolves to. *)
Record GenerationResult := {
  llmodel : string;
  usage : Usage;
  message : Message;
}.

(** What a completion does to the outside world. The caller and the provider
    are outside: [HookCalled] is logged by the caller's hook, [Generate],
    [Token] and [Returned] by the provider, [Push], [PushNull] and [EmitEnd]
    by the Node stream, [Settled] by the promise. *)
Inductive Event :=
| Generate (prompt : string)
    (** [provider.generate(prompt, ...)] is entered *)
| Token (ev : TokenEvent) (continue : bool)
    (** the provider called the token callback on [ev] and got [continue] back *)
| Returned (r : Thrown + string)
    (** [generate] settled: it rejected, or resolved to the full text *)
| ConsoleDebug (id : Z) (txt : string)
    (** [console.debug("Got token", { tokenId, text })] *)
| HookCalled (ev : TokenEvent) (ret : JSValue)
    (** the caller's [onToken] was called on [ev] and returned [ret] *)
| Push (chunk : string)
    (** [completionStream.push(text)] *)
| PushNull
    (** [completionStream.push(null)] *)
| EmitEnd
    (** [completionStream.emit("end")] *)
| Settled (o : Outcome GenerationResult).
    (** [completionPromise] settles *)

(** ** Effects

    A computation reads and updates the state [US] of the caller's closures
    and appends to the log of events. *)

Definition Eff (US A : Type) : Type := US -> A * US * list Event.

Definition ret {US A} (a : A) : Eff US A := λ s, (a, s, []).

Definition bind {US A B} (m : Eff US A) (f : A -> Eff US B) : Eff US B :=
  λ s, let '(a, s1, t1) := m s in
       let '(b, s2, t2) := f a s1 in
       (b, s2, t1 ++ t2).

Definition emit {US} (e : Event) : Eff US unit := λ s, (tt, s, [e]).

Declare Scope eff_scope.
Delimit Scope eff_scope with eff.
Notation "x <- m ;; k" := (bind m (λ x, k))
  (at level 100, m at next level, right associativity) : eff_scope.
Notation "'let*' p := m 'in' k" := (bind m (λ x, match x with p => k end))
  (at level 10, p pattern, m at level 100, k at level 200) : eff_scope.
Notation "m ;;; k" := (bind m (λ _, k))
  (at level 100, right associativity) : eff_scope.

(** ** The Node stream

    [new Stream.PassThrough({ encoding: "utf-8" })], seen from its readable
    side: the chunks it has buffered, in the order they were pushed, and
    whether end-of-stream was pushed. A pushed text is one chunk, except
    that pushing the empty string adds nothing. A read takes what is
    buffered at that moment, joined into one string. *)
Record Readable := {
  chunks : list string;
  ended : bool;
}.

Definition newPassThrough : Readable := {| chunks := []; ended := false |}.

(** The effect of one event on the stream. *)
Definition stream_step (st : Readable) (e : Event) : Readable :=
  match e with
  | Push c =>
      if ended st then st
      else if decide (c = "") then st
      else {| chunks := chunks st ++ [c]; ended := false |}
  | PushNull => {| chunks := chunks st; ended := true |}
  | _ => st
  end.

Definition stream_after (t : list Event) : Readable := foldl stream_step newPassThrough t.

(** [buffer.join("")]: what a read returns when [l] is buffered. *)
Definition joined (l : list string) : string := foldr String.append "" l.

(** The non-empty strings of [l]. *)
Definition nonblank (l : list string) : list string := filter (λ c : string, c ≠ "") l.

(** ** Providers and hooks *)

Section Completion.
Context {US : Type} `{Imports}.
Open Scope eff_scope.

(** A function usable as [options.onToken]. *)
Definition Hook : Type := TokenEvent -> Eff US JSValue.

(** A hook written by the caller: it sees the token, updates the caller's
    state and returns a value. *)
Definition CallerHook : Type := TokenEvent -> US -> JSValue * US.

Definition callerHook (h : CallerHook) : Hook :=
  λ ev s, let '(r, s') := h ev s in (r, s', [HookCalled ev r]).

(** Completion options: the data properties, and [onToken]. *)
Record Options := {
  props : gmap string JSValue;
  onToken : option Hook;
}.

(** [{...a, ...b}] on options. *)
Definition spreadOptions (a b : Options) : Options :=
  {| props := spread (props a) (props b);
     onToken := match onToken b with Some h => Some h | None => onToken a end |}.

(** One call of [generate], as the provider behaves: it emits a unit and
    goes on according to the flag the callback returns, or resolves to the
    full text, or rejects. *)
Inductive Generation :=
| Emit (ev : TokenEvent) (k : bool -> Generation)
| Done (response : string)
| Fail (e : Thrown).

Record Provider := {
  modelName : string;
  generate : string -> Options -> Generation;
}.

(** The provider runs [g] against the callback [cb]; [l] is the variable
    the callback closes over. *)
Fixpoint run {L} (g : Generation) (cb : L -> TokenEvent -> Eff US (bool * L)) (l : L)
    : Eff US ((Thrown + string) * L) :=
  match g with
  | Emit ev k =>
      let* (b, l') := cb l ev in
      emit (Token ev b) ;;;
      run (k b) cb l'
  | Done t => emit (Returned (inr t)) ;;; ret (inr t, l)
  | Fail e => emit (Returned (inl e)) ;;; ret (inl e, l)
  end.

(** [await provider.generate(prompt, options, cb)]. *)
Definition awaitGenerate {L} (provider : Provider) (prompt : string) (options : Options)
    (cb : L -> TokenEvent -> Eff US (bool * L)) (l : L) : Eff US ((Thrown + string) * L) :=
  emit (Generate prompt) ;;;
  run (generate provider prompt options) cb l.

(** A provider that stops as soon as the callback returns [false]. *)
Fixpoint stops_when_told (g : Generation) : bool :=
  match g with
  | Emit _ k =>
      match k false with Emit _ _ => false | _ => true end && stops_when_told (k true)
  | _ => true
  end.

(** ** [createCompletion] *)

(** [const defaultCompletionOptions = { verbose: false, ...DEFAULT_PROMPT_CONTEXT }]. *)
Definition defaultCompletionOptions : Options :=
  {| props := spread {["verbose" := VBool false]} DEFAULT_PROMPT_CONTEXT;
     onToken := None |}.

(** The arrow function given to [generate]; [tokensGenerated] is the
    variable it increments. *)
Definition tokenCallback (optionsWithDefaults options : Options)
    (tokensGenerated : nat) (ev : TokenEvent) : Eff US (bool * nat) :=
  (if truthy (get (props optionsWithDefaults) "verbose")
   then emit (ConsoleDebug (tokenId ev) (text ev)) else ret tt) ;;;
  continueGeneration <-
    match onToken options with
    | Some onToken => r <- onToken ev ;; ret (negb (is_false r))
    | None => ret true
    end ;;
  ret (continueGeneration, S tokensGenerated).

(** [async function createCompletion(provider, message, options = defaultCompletionOptions)].
    The parameter [message] is called [prompt] here, [message] being a
    field of the result. *)
Definition createCompletion (provider : Provider) (prompt : string)
    (options : option Options) : Eff US (Outcome GenerationResult) :=
  let options := default defaultCompletionOptions options in
  let optionsWithDefaults := spreadOptions defaultCompletionOptions options in
  let* (response, tokensGenerated) :=
    awaitGenerate provider prompt optionsWithDefaults
      (tokenCallback optionsWithDefaults options) 0 in
  match response with
  | inl e => ret (Rejected e)
  | inr response =>
      ret (Resolved
        {| llmodel := modelName provider;
           usage := {| prompt_tokens := String.length prompt;
                       completion_tokens := tokensGenerated;
                       total_tokens := String.length prompt + tokensGenerated |};
           message := {| role := "assistant"; content := response |} |})
  end.

(** ** [createCompletionStream] *)

(** The [onToken] that [createCompletionStream] installs. *)
Definition streamOnToken (options : Options) : Hook :=
  λ ev,
    emit (Push (text ev)) ;;;
    match onToken options with
    | Some onToken => onToken ev
    | None => ret VUndefined
    end.

(** [p.then(f)] with a fulfilment handler only. *)
Definition then_ {A B} (p : Outcome A) (f : A -> Eff US B) : Eff US (Outcome B) :=
  match p with
  | Resolved a => b <- f a ;; ret (Resolved b)
  | Rejected e => ret (Rejected e)
  end.

(** [{ tokens, result }]: the stream as the call leaves it, and the way
    [completionPromise] settles. *)
Record StreamHandle := {
  tokens : Readable;
  result : Outcome GenerationResult;
}.

Definition createCompletionStream (provider : Provider) (prompt : string)
    (options : option Options) : Eff US StreamHandle :=
  let options := default defaultCompletionOptions options in
  λ s,
    let '(completionPromise, s', t) :=
      (p <- createCompletion provider prompt
              (Some {| props := props options;
                       onToken := Some (streamOnToken options) |}) ;;
       q <- then_ p (λ result, emit PushNull ;;; emit EmitEnd ;;; ret result) ;;
       emit (Settled q) ;;;
       ret q) s in
    ({| tokens := stream_after t; result := completionPromise |}, s', t).

(** ** [createCompletionGenerator] *)

(** Where the generator is suspended. *)
Inductive GenState :=
| GenStart
| GenLoop (unread : list string) (closed : bool) (res : Outcome GenerationResult)
| GenDone.

(** How a call of [next()] settles; [IterPending] is a promise that never
    settles. *)
Inductive IterResult :=
| IterYield (chunk : string)
| IterReturn (r : GenerationResult)
| IterThrow (e : Thrown)
| IterFinished
| IterPending.

(** [return await completion.result], reached when the loop over the stream
    ends: with a stream that is never closed it is not reached. *)
Definition settleIteration (closed : bool) (res : Outcome GenerationResult) : IterResult :=
  match closed, res with
  | true, Resolved r => IterReturn r
  | true, Rejected e => IterThrow e
  | false, _ => IterPending
  end.

(** The loop [for await (const chunk of completion.tokens) yield chunk]
    followed by [return await completion.result], resumed when [unread] is
    what the stream has buffered: the read of the loop takes all of it,
    joined. *)
Definition resume (g : GenState) : IterResult * GenState :=
  match g with
  | GenLoop (chunk :: unread) closed res =>
      (IterYield (joined (chunk :: unread)), GenLoop [] closed res)
  | GenLoop [] true res => (settleIteration true res, GenDone)
  | GenLoop [] false res => (IterPending, g)
  | _ => (IterFinished, GenDone)
  end.

(** One call of [next()] on [createCompletionGenerator(provider, message, options)],
    for a provider that has made all its callback calls by the time the
    generator first reads the stream. *)
Definition next (provider : Provider) (prompt : string) (options : option Options)
    (g : GenState) : Eff US (IterResult * GenState) :=
  match g with
  | GenStart =>
      completion <- createCompletionStream provider prompt options ;;
      ret (resume (GenLoop (chunks (tokens completion)) (ended (tokens completion))
                           (result completion)))
  | _ => ret (resume g)
  end.

(** Calling [next()] until it does not yield, at most [fuel] times: the
    chunks yielded and the way the last call settled. *)
Fixpoint iterate (provider : Provider) (prompt : string) (options : option Options)
    (fuel : nat) (g : GenState) : Eff US (list string * option IterResult) :=
  match fuel with
  | O => ret ([], None)
  | S fuel' =>
      let* (r, g') := next provider prompt options g in
      match r with
      | IterYield chunk =>
          let* (cs, fin) := iterate provider prompt options fuel' g' in
          ret (chunk :: cs, fin)
      | _ => ret ([], Some r)
      end
  end.

(** What the reads of [for await] return when the chunks [buffered] arrive
    according to [sched]: the first read finds [S k] chunks buffered for the
    first [k] of [sched], and so on; the read after the last one of [sched]
    finds all the rest. *)
Fixpoint reads (sched : list nat) (buffered : list string) : list string :=
  match sched with
  | [] =>
      match buffered with
      | [] => []
      | _ :: _ => [joined buffered]
      end
  | k :: sched' =>
      match buffered with
      | [] => []
      | _ :: _ => joined (take (S k) buffered) :: reads sched' (drop (S k) buffered)
      end
  end.

(** [async function* createCompletionGenerator(provider, message, options)]
    iterated to its end under the schedule [sched]: the chunks it yields and
    the way the last [next()] settles. *)
Definition createCompletionGenerator (provider : Provider) (prompt : string)
    (options : option Options) (sched : list nat) : Eff US (list string * IterResult) :=
  completion <- createCompletionStream provider prompt options ;;
  ret (reads sched (chunks (tokens completion)),
       settleIteration (ended (tokens completion)) (result completion)).

End Completion.

Arguments Options : clear implicits.
Arguments Provider : clear implicits.
Arguments Hook : clear implicits.
Arguments CallerHook : clear implicits.

(** ** The caller's side *)

Section Caller.
Context {US : Type}.

(** The options a caller writes: data properties and, possibly, a hook. *)
Record CompletionOptions := {
  co_props : gmap string JSValue;
  co_onToken : option (CallerHook US);
}.

Definition ofCaller (o : CompletionOptions) : Options US :=
  {| props := co_props o; onToken := callerHook <$> co_onToken o |}.

End Caller.

Arguments CompletionOptions : clear implicits.

(** ** Reading a log of events *)

(** The callback calls the provider made: the unit, and the continuation
    flag it got back. *)
Definition token_calls (t : list Event) : list (TokenEvent * bool) :=
  omap (λ e, match e with Token ev b => Some (ev, b) | _ => None end) t.

Definition units (t : list Event) : list TokenEvent := (token_calls t).*1.

Definition flags (t : list Event) : list bool := (token_calls t).*2.

(** The calls of the caller's hook: the unit, and what the hook returned. *)
Definition hook_calls (t : list Event) : list (TokenEvent * JSValue) :=
  omap (λ e, match e with HookCalled ev r => Some (ev, r) | _ => None end) t.

Definition hook_returns (t : list Event) : list JSValue := (hook_calls t).*2.

(** The texts pushed onto the stream. *)
Definition pushes (t : list Event) : list string :=
  omap (λ e, match e with Push c => Some c | _ => None end) t.

(** The prompts [generate] was entered with, and how often it was entered. *)
Definition generate_prompts (t : list Event) : list string :=
  omap (λ e, match e with Generate p => Some p | _ => None end) t.

Definition generate_calls (t : list Event) : nat := length (generate_prompts t).

(** Whenever the caller's hook is called on a unit, the event just before
    is the push of that unit's text. *)
Definition push_before_hook (t : list Event) : Prop :=
  ∀ pre post ev r,
    t = pre ++ HookCalled ev r :: post → ∃ pre', pre = pre' ++ [Push (text ev)].

(** The path a provider takes: the units it emits, the flag it gets back for
    each, and how it settles. *)
Inductive Along : Generation -> list (TokenEvent * bool) -> Thrown + string -> Prop :=
| along_done txt : Along (Done txt) [] (inr txt)
| along_fail e : Along (Fail e) [] (inl e)
| along_emit ev k b l r : Along (k b) l r -> Along (Emit ev k) ((ev, b) :: l) r.

(** The events of one callback call: [hk] is what the caller's hook
    returned, if there is a hook; [streaming] tells whether the call comes
    through [createCompletionStream]. *)
Definition flagOf (hk : option JSValue) : bool :=
  match hk with
  | Some r => negb (is_false r)
  | None => true
  end.

Definition callBody (verbose streaming : bool) (c : TokenEvent * option JSValue) : list Event :=
  (if verbose then [ConsoleDebug (tokenId c.1) (text c.1)] else []) ++
  (if streaming then [Push (text c.1)] else []) ++
  match c.2 with Some r => [HookCalled c.1 r] | None => [] end.

Fixpoint callsEvents (verbose streaming : bool) (calls : list (TokenEvent * option JSValue))
    : list Event :=
  match calls with
  | [] => []
  | c :: calls' =>
      callBody verbose streaming c ++ Token c.1 (flagOf c.2) :: callsEvents verbose streaming calls'
  end.

(** The caller's hook, if the caller passed options with one. *)
Definition hookOf {US} (co : option (CompletionOptions US)) : option (CallerHook US) :=
  co ≫= co_onToken.

(** Whether [createCompletion], called with [options], logs every token. *)
Definition verboseOf {US} `{Imports} (options : option (Options US)) : bool :=
  truthy (get (props (spreadOptions defaultCompletionOptions
                        (default defaultCompletionOptions options))) "verbose").

(** What one call of the token callback does, in terms of the caller's
    hook [oh]. *)
Definition callback_spec {US} (cb : nat → TokenEvent → Eff US (bool * nat))
    (verbose streaming : bool) (oh : option (CallerHook US)) : Prop :=
  ∀ n ev s,
    cb n ev s =
      (flagOf ((λ h, (h ev s).1) <$> oh), S n,
       from_option (λ h, (h ev s).2) s oh,
       callBody verbose streaming (ev, (λ h, (h ev s).1) <$> oh)).

(** How [createCompletion] settles when the provider made [n] callback
    calls and settled as [leaf]. *)
Definition settles {US} (provider : Provider US) (prompt : string) (n : nat)
    (leaf : Thrown + string) : Outcome GenerationResult :=
  match leaf with
  | inl e => Rejected e
  | inr txt =>
      Resolved
        {| llmodel := modelName provider;
           usage := {| prompt_tokens := String.length prompt;
                       completion_tokens := n;
                       total_tokens := String.length prompt + n |};
           message := {| role := "assistant"; content := txt |} |}
  end.

(** The last events of [createCompletionStream] when [createCompletion]
    settled as [out]. *)
Definition closing (out : Outcome GenerationResult) : list Event :=
  match out with
  | Resolved _ => [PushNull; EmitEnd; Settled out]
  | Rejected _ => [Settled out]
  end.

(** ** Sample collaborators, for concrete runs *)

Definition sampleImports : Imports :=
  {| LLModel := unit;
     LLModel_new := λ _, inr tt;
     existsSync := λ p, String.eqb p "/lib";
     retrieveModel := λ _ _, inr ∅;
     appendBinSuffixIfMissing := λ s, s;
     DEFAULT_DIRECTORY := "/models";
     DEFAULT_LIBRARIES_DIRECTORY := "/lib;/opt/lib";
     DEFAULT_PROMPT_CONTEXT := ∅ |}.

Definition unit_ (i : Z) (s full : string) : TokenEvent :=
  {| tokenId := i; text := s; fullText := full |}.

(** Emits "a", "b", "c" and resolves to what it emitted; stops when told. *)
Definition abcProvider : Provider nat :=
  {| modelName := "abc";
     generate := λ _ _,
       Emit (unit_ 1 "a" "a") (λ go,
         if go then Emit (unit_ 2 "b" "ab") (λ go,
           if go then Emit (unit_ 3 "c" "abc") (λ _, Done "abc") else Done "ab")
         else Done "a") |}.

(** Emits "a" and then rejects. *)
Definition failingProvider : Provider nat :=
  {| modelName := "broken";
     generate := λ _ _, Emit (unit_ 1 "a" "a") (λ _, Fail (Error "out of memory")) |}.

(** A hook that counts its calls and returns [false] on the second one. *)
Definition stopAtSecond : CallerHook nat :=
  λ _ n, (if Nat.eqb n 1 then VBool false else VUndefined, S n).

(** ** [createEmbedding] *)

(** [function createEmbedding(model, text) { return model.embed(text); }],
    for a model whose [embed] method is [embed]. *)
Definition createEmbedding {M V : Type} (embed : M -> string -> V) (model : M)
    (text : string) : V :=
  embed model text.

(** ** More to read from logs *)

(** Whether the character [c] occurs in [s]. *)
Fixpoint occurs (c : ascii) (s : string) : bool :=
  match s with
  | EmptyString => false
  | String c' s' => Ascii.eqb c' c || occurs c s'
  end.

(** The model resolutions and the native constructions of a [loadModel]. *)
Definition resolutions (t : list LoadEvent) : list (string * RetrieveOptions) :=
  omap (λ e, match e with Retrieve n o => Some (n, o) | _ => None end) t.

Definition constructions (t : list LoadEvent) : list LLMOptions :=
  omap (λ e, match e with NewLLModel o => Some o | _ => None end) t.

(** The lines [createCompletion] wrote to the console. *)
Definition debug_lines (t : list Event) : list (Z * string) :=
  omap (λ e, match e with ConsoleDebug id txt => Some (id, txt) | _ => None end) t.

(** Events of the stream and of its deferred result. *)
Definition stream_event (e : Event) : bool :=
  match e with
  | Push _ | PushNull | EmitEnd | Settled _ => true
  | _ => false
  end.

Definition debug_event (e : Event) : bool :=
  match e with
  | ConsoleDebug _ _ => true
  | _ => false
  end.

(** The caller's hook [h] called on the units [evs] one after the other,
    from the state [s]: what it returns, and the state it leaves. *)
Fixpoint hookTrace {US} (h : CallerHook US) (evs : list TokenEvent) (s : US)
    : list JSValue * US :=
  match evs with
  | [] => ([], s)
  | ev :: evs' =>
      let '(r, s1) := h ev s in
      let '(rs, s') := hookTrace h evs' s1 in
      (r :: rs, s')
  end.

(** The callback calls a provider makes when every call is answered as the
    caller's hook [oh] decides: the calls, how the provider settles, and the
    caller's state at the end. *)
Fixpoint callsOf {US} (g : Generation) (oh : option (CallerHook US)) (s : US)
    : list (TokenEvent * option JSValue) * (Thrown + string) * US :=
  match g with
  | Emit ev k =>
      let hk := (λ h, (h ev s).1) <$> oh in
      let '(calls, leaf, s') :=
        callsOf (k (flagOf hk)) oh (from_option (λ h, (h ev s).2) s oh) in
      ((ev, hk) :: calls, leaf, s')
  | Done txt => ([], inr txt, s)
  | Fail e => ([], inl e, s)
  end.

(** The options object [createCompletion] hands to [generate]. *)
Definition optionsWithDefaults {US} `{Imports} (options : option (Options US)) : Options US :=
  spreadOptions defaultCompletionOptions (default defaultCompletionOptions options).

(** The options object [createCompletionStream] hands to [createCompletion]. *)
Definition streamOptions {US} `{Imports} (options : option (Options US)) : Options US :=
  {| props := props (default defaultCompletionOptions options);
     onToken := Some (streamOnToken (default defaultCompletionOptions options)) |}.

(** The flags of [calls] are the ones the continuation policy gives against
    the caller's hook [oh]: at each unit the flag is [false] exactly when the
    hook, called on that unit in the state its earlier calls left, returns
    [false]; without a hook every flag is [true]. *)
Fixpoint answered {US} (oh : option (CallerHook US)) (s : US)
    (calls : list (TokenEvent * bool)) : Prop :=
  match calls with
  | [] => True
  | (ev, b) :: calls' =>
      b = flagOf ((λ h, (h ev s).1) <$> oh) ∧
      answered oh (from_option (λ h, (h ev s).2) s oh) calls'
  end.

(** Whether [to_string] is JavaScript's conversion at [v]: it is at every
    value but a number outside the safe integers, which JavaScript prints
    rounded or in exponent form. *)
Definition printable (v : JSValue) : bool :=
  match v with
  | VNum n => (Z.abs n <=? 9007199254740991)%Z
  | _ => true
  end.

(** More sample providers and hooks: a provider whose first unit has an
    empty text, a provider that ignores the continuation flag, and a hook
    that returns [false] at once. *)
Definition blankProvider : Provider nat :=
  {| modelName := "blank";
     generate := λ _ _,
       Emit (unit_ 1 "" "") (λ _, Emit (unit_ 2 "b" "b") (λ _, Done "b")) |}.

Definition deafProvider : Provider nat :=
  {| modelName := "deaf";
     generate := λ _ _,
       Emit (unit_ 1 "a" "a") (λ _,
         Emit (unit_ 2 "b" "ab") (λ _,
           Emit (unit_ 3 "c" "abc") (λ _, Done "abc"))) |}.

Definition stopAtFirst : CallerHook nat := λ _ n, (VBool false, S n).

(** More sample collaborators: a resolver that finds nothing, and a native
    addon that fails to load the model. *)
Definition offlineImports : Imports :=
  {| LLModel := unit;
     LLModel_new := λ _, inr tt;
     existsSync := λ p, String.eqb p "/lib";
     retrieveModel := λ _ _, inl (Error "Model not found");
     appendBinSuffixIfMissing := λ s, s;
     DEFAULT_DIRECTORY := "/models";
     DEFAULT_LIBRARIES_DIRECTORY := "/lib;/opt/lib";
     DEFAULT_PROMPT_CONTEXT := ∅ |}.

Definition brokenAddonImports : Imports :=
  {| LLModel := unit;
     LLModel_new := λ _, inl (Error "Failed to load model");
     existsSync := λ p, String.eqb p "/lib";
     retrieveModel := λ _ _, inr ∅;
     appendBinSuffixIfMissing := λ s, s;
     DEFAULT_DIRECTORY := "/models";
     DEFAULT_LIBRARIES_DIRECTORY := "/lib;/opt/lib";
     DEFAULT_PROMPT_CONTEXT := ∅ |}.

(** * Properties *)

(** ** Strings *)

Lemma split_nonempty sep s : split sep s ≠ [].
Proof.
  destruct s as [|c s]; simpl; [done|].
  destruct (Ascii.eqb c sep); [done|]. by destruct (split sep s).
Qed.

Lemma join_cons sep x l :
  l ≠ [] → join sep (x :: l) = x +:+ sep +:+ join sep l.
Proof. by destruct l. Qed.

(** Splitting at a separator and joining again gives the string back. *)
Lemma join_split sep s : join (String sep EmptyString) (split sep s) = s.
Proof.
  induction s as [|c s IH]; [done|].
  cbn [split]. destruct (Ascii.eqb_spec c sep) as [->|Hne].
  - rewrite join_cons by apply split_nonempty. simpl. by rewrite IH.
  - pose proof (split_nonempty sep s) as Hs.
    destruct (split sep s) as [|seg segs]; [done|].
    destruct segs as [|seg' segs].
    + simpl in *. by rewrite IH.
    + rewrite join_cons by done. rewrite join_cons in IH by done.
      simpl. by rewrite <- IH.
Qed.

(** ** [loadModel] *)

Section LoadModelFacts.
Context `{Imports}.

Lemma get_loadOptions_supplied options k v :
  options !! k = Some v → get (loadOptions options) k = v.
Proof.
  intros Hk. unfold get, loadOptions, spread.
  by rewrite (lookup_union_Some_l _ _ _ _ Hk).
Qed.

Lemma get_loadOptions_default options k :
  options !! k = None → get (loadOptions options) k = get defaultLoadOptions k.
Proof.
  intros Hk. unfold get, loadOptions, spread. by rewrite lookup_union_r.
Qed.

(** When the model resolves, the libraries path is a string and the native
    constructor does not throw, [loadModel] settles by the type alone. *)
Lemma loadModel_dispatch name options cfg lp handle :
  retrieveModel name (retrieveOptions (loadOptions options)) = inr cfg →
  get (loadOptions options) "librariesPath" = VStr lp →
  LLModel_new (llmOptions name (loadOptions options) (existingPaths lp)) = inr handle →
  fst (loadModel name (Some options)) =
    if eq_str (get (loadOptions options) "type") "embedding"
    then Resolved (EmbeddingModel handle cfg)
    else if eq_str (get (loadOptions options) "type") "inference"
    then Resolved (InferenceModel handle cfg)
    else Rejected (Error ("Invalid model type: " +:+ to_string (get (loadOptions options) "type"))).
Proof.
  intros Hret Hlp Hnew. unfold loadModel.
  cbv zeta. change (default ∅ (Some options)) with options.
  rewrite Hret, Hlp, Hnew.
  by repeat case_match.
Qed.

(** In the same situation the log is: resolution, the debug line if
    verbose, construction. *)
Lemma loadModel_log name options cfg lp handle :
  retrieveModel name (retrieveOptions (loadOptions options)) = inr cfg →
  get (loadOptions options) "librariesPath" = VStr lp →
  LLModel_new (llmOptions name (loadOptions options) (existingPaths lp)) = inr handle →
  snd (loadModel name (Some options)) =
    Retrieve name (retrieveOptions (loadOptions options)) ::
    (if truthy (get (loadOptions options) "verbose")
     then [DebugCreating (llmOptions name (loadOptions options) (existingPaths lp)) cfg]
     else []) ++
    [NewLLModel (llmOptions name (loadOptions options) (existingPaths lp))].
Proof.
  intros Hret Hlp Hnew. unfold loadModel.
  cbv zeta. change (default ∅ (Some options)) with options.
  rewrite Hret, Hlp, Hnew.
  by repeat case_match.
Qed.

(** When the model does not resolve, that is the rejection, and nothing else
    was done. *)
Lemma loadModel_resolution_fails name options e :
  retrieveModel name (retrieveOptions (loadOptions options)) = inl e →
  loadModel name (Some options) =
    (Rejected e, [Retrieve name (retrieveOptions (loadOptions options))]).
Proof.
  intros Hret. unfold loadModel.
  cbv zeta. change (default ∅ (Some options)) with options.
  by rewrite Hret.
Qed.

End LoadModelFacts.

(** C8. The effective configuration of [loadModel] is the caller's options
    laid over the fixed defaults: a key the caller supplies keeps the
    caller's value, a key the caller omits gets the default, the defaults
    are the eight listed ones, and this merged record is what [loadModel]
    goes on with (its first action resolves the model with it). *)
Theorem loadModel_merges_options `{Imports} (options : gmap string JSValue) :
  (∀ k v, options !! k = Some v → loadOptions options !! k = Some v) ∧
  (∀ k, options !! k = None → loadOptions options !! k = defaultLoadOptions !! k) ∧
  defaultLoadOptions =
    list_to_map
      [("modelPath", VStr DEFAULT_DIRECTORY);
       ("librariesPath", VStr DEFAULT_LIBRARIES_DIRECTORY);
       ("type", VStr "inference");
       ("allowDownload", VBool true);
       ("verbose", VBool false);
       ("device", VStr "cpu");
       ("nCtx", VNum 2048);
       ("ngl", VNum 100)] ∧
  (∀ name, head (snd (loadModel name (Some options))) =
             Some (Retrieve name (retrieveOptions (loadOptions options)))).
Proof.
  split; [|split; [|split]].
  - intros k v Hk. unfold loadOptions, spread. by apply lookup_union_Some_l.
  - intros k Hk. unfold loadOptions, spread. by apply lookup_union_r.
  - reflexivity.
  - intros name. unfold loadModel. cbv zeta.
    change (default ∅ (Some options)) with options.
    by repeat case_match.
Qed.

(** C7, as stated, fails: with the type ["chat"] the promise does reject
    with the invalid-type error, but the native handle has been constructed
    by then. *)
Lemma loadModel_invalid_type_constructs_handle :
  let options : gmap string JSValue := {["type" := VStr "chat"]} in
  let settled := @loadModel sampleImports "model" (Some options) in
  options !! "type" = Some (VStr "chat") ∧
  "chat" ≠ "inference" ∧ "chat" ≠ "embedding" ∧
  ¬ (fst settled = Rejected (Error "Invalid model type: chat") ∧
     ∀ o, NewLLModel o ∉ snd settled).
Proof.
  cbv zeta. repeat split; try done.
  intros [_ Hno].
  apply (Hno (@llmOptions sampleImports "model"
                (@loadOptions sampleImports {["type" := VStr "chat"]}) "/lib")).
  apply list_elem_of_In. right. left. reflexivity.
Qed.

(** C7, amended. For options whose type is the string [t]: once the model
    has resolved, the libraries path is a string and the native constructor
    has returned a handle, [loadModel] resolves to an [EmbeddingModel]
    wrapper if [t] is "embedding", to an [InferenceModel] wrapper if [t] is
    "inference", and otherwise rejects with the error naming [t]; in each
    case constructing the native handle is the last thing it did. *)
Theorem loadModel_settles_by_type `{Imports} name (options : gmap string JSValue)
    t cfg lp handle :
  options !! "type" = Some (VStr t) →
  retrieveModel name (retrieveOptions (loadOptions options)) = inr cfg →
  get (loadOptions options) "librariesPath" = VStr lp →
  LLModel_new (llmOptions name (loadOptions options) (existingPaths lp)) = inr handle →
  (t = "embedding" →
     fst (loadModel name (Some options)) = Resolved (EmbeddingModel handle cfg)) ∧
  (t = "inference" →
     fst (loadModel name (Some options)) = Resolved (InferenceModel handle cfg)) ∧
  (t ≠ "embedding" → t ≠ "inference" →
     fst (loadModel name (Some options)) =
       Rejected (Error ("Invalid model type: " +:+ t))) ∧
  last (snd (loadModel name (Some options))) =
    Some (NewLLModel (llmOptions name (loadOptions options) (existingPaths lp))).
Proof.
  intros Ht Hret Hlp Hnew.
  rewrite (loadModel_dispatch name options cfg lp handle Hret Hlp Hnew).
  rewrite (loadModel_log name options cfg lp handle Hret Hlp Hnew).
  rewrite (get_loadOptions_supplied options "type" (VStr t) Ht). simpl.
  repeat split.
  - by intros ->.
  - by intros ->.
  - intros He Hi.
    destruct (String.eqb_spec t "embedding"); [done|].
    by destruct (String.eqb_spec t "inference").
  - by destruct (truthy _).
Qed.

Lemma loadModel_settles_by_type_witness :
  fst (@loadModel sampleImports "model" (Some {["type" := VStr "embedding"]})) =
    Resolved (@EmbeddingModel sampleImports tt ∅).
Proof.
  refine (proj1 (@loadModel_settles_by_type sampleImports "model"
                   {["type" := VStr "embedding"]} "embedding" ∅ "/lib;/opt/lib" tt
                   _ _ _ _) _); reflexivity.
Defined.

(** C9, as stated, fails: with the libraries path [5] the model is resolved
    before the assertion rejects. *)
Lemma loadModel_resolves_before_checking_libraries_path :
  let options : gmap string JSValue := {["librariesPath" := VNum 5]} in
  let settled := @loadModel sampleImports "model" (Some options) in
  is_string (get (@loadOptions sampleImports options) "librariesPath") = false ∧
  ¬ ((∃ msg, fst settled = Rejected (AssertionError msg)) ∧
     (∀ n o, Retrieve n o ∉ snd settled) ∧
     (∀ o, NewLLModel o ∉ snd settled)).
Proof.
  cbv zeta. split; [reflexivity|].
  intros (_ & Hno & _).
  apply (Hno "model" (@retrieveOptions
           (@loadOptions sampleImports {["librariesPath" := VNum 5]}))).
  apply list_elem_of_In. left. reflexivity.
Qed.

(** C9, amended. Once the model has resolved: if the caller's libraries path
    is not a string, [loadModel] rejects with the assertion error and has
    constructed no native handle (resolving the model is all it did); if the
    libraries path is the string [lp], exactly one native handle is
    constructed, and the library path it is given is [lp] split at ";",
    reduced to the entries that exist, joined with ";". *)
Theorem loadModel_libraries_path `{Imports} name (options : gmap string JSValue) cfg :
  retrieveModel name (retrieveOptions (loadOptions options)) = inr cfg →
  (∀ v, options !! "librariesPath" = Some v → is_string v = false →
     loadModel name (Some options) =
       (Rejected (AssertionError "Libraries path should be a string"),
        [Retrieve name (retrieveOptions (loadOptions options))])) ∧
  (∀ lp, get (loadOptions options) "librariesPath" = VStr lp →
     let kept := filter (λ p, existsSync p = true) (split ";"%char lp) in
     ∃ o,
       omap (λ e, match e with NewLLModel o => Some o | _ => None end)
            (snd (loadModel name (Some options))) = [o] ∧
       library_path o = join ";" kept ∧
       ∀ p, p ∈ kept ↔ p ∈ split ";"%char lp ∧ existsSync p = true).
Proof.
  intros Hret. split.
  - intros v Hv Hns. unfold loadModel. cbv zeta.
    change (default ∅ (Some options)) with options.
    rewrite Hret, (get_loadOptions_supplied options _ v Hv).
    by destruct v.
  - intros lp Hlp kept.
    exists (llmOptions name (loadOptions options) (existingPaths lp)).
    split; [|split].
    + unfold loadModel. cbv zeta.
      change (default ∅ (Some options)) with options.
      rewrite Hret, Hlp.
      by repeat case_match.
    + reflexivity.
    + intros p. unfold kept. by rewrite list_elem_of_filter, (comm and).
Qed.

Lemma loadModel_libraries_path_witness :
  @loadModel sampleImports "model" (Some {["librariesPath" := VNum 5]}) =
    (Rejected (AssertionError "Libraries path should be a string"),
     [Retrieve "model"
        (@retrieveOptions (@loadOptions sampleImports {["librariesPath" := VNum 5]}))]).
Proof.
  refine (proj1 (@loadModel_libraries_path sampleImports "model"
                   {["librariesPath" := VNum 5]} ∅ _) (VNum 5) _ _); reflexivity.
Defined.

(** ** Reading logs of callback calls *)

Lemma token_calls_app t1 t2 : token_calls (t1 ++ t2) = token_calls t1 ++ token_calls t2.
Proof. apply omap_app. Qed.

Lemma hook_calls_app t1 t2 : hook_calls (t1 ++ t2) = hook_calls t1 ++ hook_calls t2.
Proof. apply omap_app. Qed.

Lemma pushes_app t1 t2 : pushes (t1 ++ t2) = pushes t1 ++ pushes t2.
Proof. apply omap_app. Qed.

Lemma token_calls_callBody v st c : token_calls (callBody v st c) = [].
Proof. destruct c as [ev [r|]], v, st; reflexivity. Qed.

Lemma token_calls_callsEvents v st calls :
  token_calls (callsEvents v st calls) = map (λ c, (c.1, flagOf c.2)) calls.
Proof.
  induction calls as [|c calls IH]; [done|].
  cbn [callsEvents]. rewrite token_calls_app, token_calls_callBody.
  cbn. by rewrite <- IH.
Qed.

Lemma hook_calls_callsEvents v st calls :
  hook_calls (callsEvents v st calls) = omap (λ c, pair c.1 <$> c.2) calls.
Proof.
  induction calls as [|c calls IH]; [done|].
  cbn [callsEvents]. rewrite hook_calls_app.
  change (hook_calls (Token c.1 (flagOf c.2) :: callsEvents v st calls))
    with (hook_calls (callsEvents v st calls)).
  rewrite IH. destruct c as [ev [r|]], v, st; reflexivity.
Qed.

Lemma pushes_callsEvents v st calls :
  pushes (callsEvents v st calls) = if st then map (λ c, text c.1) calls else [].
Proof.
  induction calls as [|c calls IH]; [by destruct st|].
  cbn [callsEvents]. rewrite pushes_app.
  change (pushes (Token c.1 (flagOf c.2) :: callsEvents v st calls))
    with (pushes (callsEvents v st calls)).
  rewrite IH. destruct c as [ev [r|]], v, st; reflexivity.
Qed.

Lemma generate_prompts_app t1 t2 :
  generate_prompts (t1 ++ t2) = generate_prompts t1 ++ generate_prompts t2.
Proof. apply omap_app. Qed.

Lemma generate_prompts_callsEvents v st calls : generate_prompts (callsEvents v st calls) = [].
Proof.
  induction calls as [|c calls IH]; [done|].
  cbn [callsEvents]. rewrite generate_prompts_app.
  change (generate_prompts (Token c.1 (flagOf c.2) :: callsEvents v st calls))
    with (generate_prompts (callsEvents v st calls)).
  rewrite IH. destruct c as [ev [r|]], v, st; reflexivity.
Qed.

(** The only [Returned] event of a run is its last one. *)
Lemma returned_in_callsEvents v st calls leaf r :
  Returned r ∈ callsEvents v st calls ++ [Returned leaf] → r = leaf.
Proof.
  rewrite elem_of_app, list_elem_of_singleton. intros [Hin|Heq]; [|congruence].
  exfalso. induction calls as [|c calls IH]; [by apply elem_of_nil in Hin|].
  cbn [callsEvents] in Hin. rewrite elem_of_app, elem_of_cons in Hin.
  destruct Hin as [Hin|[Hin|Hin]]; [|done|by apply IH].
  apply list_elem_of_In in Hin.
  destruct c as [ev [r'|]], v, st; cbn in Hin; intuition discriminate.
Qed.

(** The stream after the events of the callback calls. *)
Lemma stream_callsEvents v calls st0 :
  ended st0 = false →
  foldl stream_step st0 (callsEvents v true calls) =
    {| chunks := chunks st0 ++ nonblank (map (λ c, text c.1) calls); ended := false |}.
Proof.
  revert st0. induction calls as [|c calls IH]; intros st0 Hst0.
  - cbn. rewrite app_nil_r. by destruct st0; simplify_eq/=.
  - cbn [callsEvents]. rewrite foldl_app. cbn [foldl].
    assert (foldl stream_step st0 (callBody v true c) =
              {| chunks := chunks st0 ++ nonblank [text c.1]; ended := false |}) as ->.
    { unfold nonblank. rewrite filter_cons, filter_nil.
      destruct st0 as [cs0 e0]; cbn in Hst0; subst e0.
      destruct c as [ev [r|]], v; cbn;
        destruct (decide (text ev = "")) as [Heq|Hne];
        destruct (decide (text ev ≠ "")) as [Hne'|Heq']; try done;
        rewrite ?app_nil_r; done. }
    cbn [stream_step]. rewrite IH by done. cbn [chunks].
    rewrite <- app_assoc. f_equal. f_equal.
    unfold nonblank. cbn [map]. rewrite !filter_cons, filter_nil.
    by destruct (decide (text c.1 ≠ "")).
Qed.

(** ** Running a provider against the token callback *)

Section CompletionFacts.
Context {US : Type} `{Imports}.

Lemma tokenCallback_direct owd (options : Options US) oh :
  onToken options = callerHook <$> oh →
  callback_spec (tokenCallback owd options)
    (truthy (get (props owd) "verbose")) false oh.
Proof.
  intros Hh n ev s. unfold tokenCallback, bind, ret, emit, callBody.
  rewrite Hh. destruct oh as [h|]; cbn.
  - unfold callerHook. destruct (h ev s) as [r s1] eqn:Hhev.
    by destruct (truthy _); cbn; rewrite ?Hhev.
  - by destruct (truthy _).
Qed.

Lemma tokenCallback_stream owd (options uo : Options US) oh :
  onToken options = Some (streamOnToken uo) →
  onToken uo = callerHook <$> oh →
  callback_spec (tokenCallback owd options)
    (truthy (get (props owd) "verbose")) true oh.
Proof.
  intros Hh Hu n ev s. unfold tokenCallback, bind, ret, emit, callBody.
  rewrite Hh. unfold streamOnToken, bind, emit, ret. rewrite Hu.
  destruct oh as [h|]; cbn.
  - unfold callerHook. destruct (h ev s) as [r s1] eqn:Hhev.
    by destruct (truthy _); cbn; rewrite ?Hhev.
  - by destruct (truthy _).
Qed.

(** The run of a provider: it follows one path of the provider, calls the
    callback once per unit on it, and logs the calls in order. *)
Lemma run_shape (cb : nat → TokenEvent → Eff US (bool * nat)) verbose streaming oh :
  callback_spec cb verbose streaming oh →
  ∀ g n s, ∃ calls leaf s',
    run g cb n s =
      (leaf, n + length calls, s', callsEvents verbose streaming calls ++ [Returned leaf]) ∧
    Along g (map (λ c, (c.1, flagOf c.2)) calls) leaf ∧
    Forall (λ c, is_Some c.2 ↔ is_Some oh) calls.
Proof.
  intros Hcb g. induction g as [ev k IH|txt|e]; intros n s.
  - cbn [run]. unfold bind, emit. rewrite Hcb.
    set (hk := (λ h, (h ev s).1) <$> oh).
    set (s1 := from_option (λ h, (h ev s).2) s oh).
    destruct (IH (flagOf hk) (S n) s1) as (calls & leaf & s' & Hrun & Hal & Hf).
    exists ((ev, hk) :: calls), leaf, s'. split; [|split].
    + rewrite Hrun. cbn. by rewrite Nat.add_succ_r, <- app_assoc.
    + cbn. by constructor.
    + constructor; [|done]. cbn. unfold hk. by rewrite fmap_is_Some.
  - exists [], (inr txt), s. cbn. rewrite Nat.add_0_r.
    split; [done|]. split; constructor.
  - exists [], (inl e), s. cbn. rewrite Nat.add_0_r.
    split; [done|]. split; constructor.
Qed.

Lemma createCompletion_shape provider prompt (options : option (Options US)) streaming oh :
  callback_spec
    (tokenCallback
       (spreadOptions defaultCompletionOptions (default defaultCompletionOptions options))
       (default defaultCompletionOptions options))
    (verboseOf options) streaming oh →
  ∀ s, ∃ calls leaf s',
    createCompletion provider prompt options s =
      (settles provider prompt (length calls) leaf, s',
       Generate prompt :: callsEvents (verboseOf options) streaming calls ++ [Returned leaf]) ∧
    Along (generate provider prompt
             (spreadOptions defaultCompletionOptions
                (default defaultCompletionOptions options)))
          (map (λ c, (c.1, flagOf c.2)) calls) leaf ∧
    Forall (λ c, is_Some c.2 ↔ is_Some oh) calls.
Proof.
  intros Hcb s.
  destruct (run_shape _ _ _ _ Hcb
              (generate provider prompt
                 (spreadOptions defaultCompletionOptions
                    (default defaultCompletionOptions options))) 0 s)
    as (calls & leaf & s' & Hrun & Hal & Hf).
  exists calls, leaf, s'. split; [|done].
  unfold createCompletion, awaitGenerate, bind, emit. cbv zeta.
  rewrite Hrun. destruct leaf; cbn; by rewrite app_nil_r.
Qed.

Lemma onToken_ofCaller (co : option (CompletionOptions US)) :
  onToken (default defaultCompletionOptions (ofCaller <$> co)) = callerHook <$> hookOf co.
Proof. by destruct co. Qed.

(** [createCompletion] called by a caller. *)
Lemma createCompletion_caller provider prompt (co : option (CompletionOptions US)) s :
  ∃ calls leaf s',
    createCompletion provider prompt (ofCaller <$> co) s =
      (settles provider prompt (length calls) leaf, s',
       Generate prompt ::
         callsEvents (verboseOf (ofCaller <$> co)) false calls ++ [Returned leaf]) ∧
    Along (generate provider prompt
             (spreadOptions defaultCompletionOptions
                (default defaultCompletionOptions (ofCaller <$> co))))
          (map (λ c, (c.1, flagOf c.2)) calls) leaf ∧
    Forall (λ c, is_Some c.2 ↔ is_Some (hookOf co)) calls.
Proof.
  apply createCompletion_shape, tokenCallback_direct, onToken_ofCaller.
Qed.

End CompletionFacts.

(** ** Flags and hook returns *)

Lemma is_false_spec r : negb (is_false r) = false ↔ r = VBool false.
Proof. destruct r as [| |[|]| |]; cbn; split; congruence. Qed.

Lemma hooked_calls (calls : list (TokenEvent * option JSValue)) :
  Forall (λ c, is_Some c.2) calls →
  map (λ c, (c.1, flagOf c.2)) calls =
    map (λ c, (c.1, negb (is_false c.2))) (omap (λ c, pair c.1 <$> c.2) calls).
Proof.
  induction 1 as [|[ev hk] calls [r ?] _ IH]; [done|].
  simplify_eq/=. by rewrite IH.
Qed.

Lemma unhooked_calls (calls : list (TokenEvent * option JSValue)) :
  Forall (λ c, c.2 = None) calls →
  omap (λ c, pair c.1 <$> c.2) calls = [] ∧
  Forall (λ b, b = true) (map (λ c, (c.1, flagOf c.2)) calls).*2.
Proof.
  induction 1 as [|[ev hk] calls ? _ [IH1 IH2]]; [by split; [|constructor]|].
  simplify_eq/=. split; [done|]. by constructor.
Qed.

(** What the flags are, given what the hook returned. *)
Lemma flags_of_returns (fl : list bool) (rets : list JSValue) :
  fl = map (λ r, negb (is_false r)) rets ∨ (rets = [] ∧ Forall (λ b, b = true) fl) →
  (∀ i, fl !! i = Some false ↔ rets !! i = Some (VBool false)) ∧
  (∀ k, rets !! k = Some (VBool false) →
        (∀ j, j < k → rets !! j ≠ Some (VBool false)) →
        fl !! k = Some false ∧ ∀ j, j < k → fl !! j = Some true) ∧
  ((∀ r, r ∈ rets → r ≠ VBool false) → Forall (λ b, b = true) fl).
Proof.
  intros [->|[-> Hall]].
  - assert (∀ i, map (λ r, negb (is_false r)) rets !! i = Some false ↔
                 rets !! i = Some (VBool false)) as Hiff.
    { intros i. rewrite list_lookup_fmap.
      destruct (rets !! i) as [r|]; cbn; [|done].
      split; intros [= Hr]; f_equal; [by apply is_false_spec|by subst]. }
    split; [done|]. split.
    + intros k Hk Hbefore. split; [by apply Hiff|].
      intros j Hj. rewrite list_lookup_fmap.
      destruct (rets !! j) as [r|] eqn:Hr.
      * cbn. f_equal. destruct (negb (is_false r)) eqn:Hf; [done|].
        apply is_false_spec in Hf. subst r. by destruct (Hbefore j Hj).
      * apply lookup_ge_None in Hr. apply lookup_lt_Some in Hk. lia.
    + intros Hnever. apply Forall_fmap, Forall_forall. intros r Hr. cbn.
      destruct (negb (is_false r)) eqn:Hf; [done|].
      apply is_false_spec in Hf. by destruct (Hnever r Hr).
  - split; [|split]; [|done|done].
    intros i. split; [|done].
    intros Hi. by apply (Forall_lookup_1 _ _ _ _ Hall) in Hi.
Qed.

(** ** The interaction of a provider and a hook *)

Lemma stream_after_log prompt v calls leaf out :
  stream_after (Generate prompt :: callsEvents v true calls ++ [Returned leaf] ++ closing out) =
    {| chunks := nonblank (map (λ c, text c.1) calls);
       ended := match out with Resolved _ => true | Rejected _ => false end |}.
Proof.
  unfold stream_after. cbn [foldl stream_step].
  rewrite foldl_app, stream_callsEvents by done.
  by destruct out.
Qed.

Lemma hook_returns_calls (calls : list (TokenEvent * option JSValue)) :
  (omap (λ c, pair c.1 <$> c.2) calls).*2 = omap snd calls.
Proof.
  induction calls as [|[ev [r|]] calls IH]; cbn; by rewrite ?IH.
Qed.

Lemma hook_units_calls (calls : list (TokenEvent * option JSValue)) :
  Forall (λ c, is_Some c.2) calls →
  (omap (λ c, pair c.1 <$> c.2) calls).*1 = calls.*1.
Proof.
  induction 1 as [|[ev hk] calls [r ?] _ IH]; [done|].
  simplify_eq/=. by rewrite IH.
Qed.

Section CompletionRuns.
Context {US : Type} `{Imports}.

(** The run of a provider against the token callback is the run [callsOf]
    describes. *)
Lemma run_callsOf (cb : nat → TokenEvent → Eff US (bool * nat)) verbose streaming oh :
  callback_spec cb verbose streaming oh →
  ∀ g n s,
    run g cb n s =
      ((callsOf g oh s).1.2, n + length (callsOf g oh s).1.1, (callsOf g oh s).2,
       callsEvents verbose streaming (callsOf g oh s).1.1 ++ [Returned (callsOf g oh s).1.2]).
Proof.
  intros Hcb g. induction g as [ev k IH|txt|e]; intros n s.
  - cbn [run callsOf]. unfold bind, emit. rewrite Hcb, IH.
    destruct (callsOf _ oh _) as [[calls leaf] s']. cbn.
    by rewrite Nat.add_succ_r, <- app_assoc.
  - cbn. by rewrite Nat.add_0_r.
  - cbn. by rewrite Nat.add_0_r.
Qed.

Lemma createCompletion_run provider prompt (options : option (Options US)) streaming oh :
  callback_spec
    (tokenCallback (optionsWithDefaults options) (default defaultCompletionOptions options))
    (verboseOf options) streaming oh →
  ∀ s,
    let R := callsOf (generate provider prompt (optionsWithDefaults options)) oh s in
    createCompletion provider prompt options s =
      (settles provider prompt (length R.1.1) R.1.2, R.2,
       Generate prompt :: callsEvents (verboseOf options) streaming R.1.1 ++ [Returned R.1.2]).
Proof.
  intros Hcb s R. unfold createCompletion, awaitGenerate, bind, emit. cbv zeta.
  fold (optionsWithDefaults options).
  rewrite (run_callsOf _ _ _ _ Hcb). fold R.
  destruct R as [[calls [e|txt]] s']; cbn; by rewrite app_nil_r.
Qed.

(** [createCompletion] called by a caller, as a function of the provider's
    tree and the caller's hook. *)
Lemma createCompletion_caller_run provider prompt (co : option (CompletionOptions US)) s :
  let R := callsOf (generate provider prompt (optionsWithDefaults (ofCaller <$> co)))
             (hookOf co) s in
  createCompletion provider prompt (ofCaller <$> co) s =
    (settles provider prompt (length R.1.1) R.1.2, R.2,
     Generate prompt ::
       callsEvents (verboseOf (ofCaller <$> co)) false R.1.1 ++ [Returned R.1.2]).
Proof.
  apply createCompletion_run, tokenCallback_direct, onToken_ofCaller.
Qed.

(** [createCompletionStream] called by a caller, in the same terms. *)
Lemma createCompletionStream_caller_run provider prompt (co : option (CompletionOptions US)) s :
  let inner := Some (streamOptions (ofCaller <$> co)) in
  let R := callsOf (generate provider prompt (optionsWithDefaults inner)) (hookOf co) s in
  createCompletionStream provider prompt (ofCaller <$> co) s =
    ({| tokens :=
          {| chunks := nonblank (map (λ c, text c.1) R.1.1);
             ended := match R.1.2 with inr _ => true | inl _ => false end |};
        result := settles provider prompt (length R.1.1) R.1.2 |},
     R.2,
     Generate prompt :: callsEvents (verboseOf (ofCaller <$> co)) true R.1.1 ++
       [Returned R.1.2] ++ closing (settles provider prompt (length R.1.1) R.1.2)).
Proof.
  intros inner R.
  assert (createCompletion provider prompt inner s =
            (settles provider prompt (length R.1.1) R.1.2, R.2,
             Generate prompt :: callsEvents (verboseOf inner) true R.1.1 ++ [Returned R.1.2]))
    as Hrun.
  { apply createCompletion_run. eapply tokenCallback_stream; [done|].
    apply onToken_ofCaller. }
  change (verboseOf inner) with (verboseOf (ofCaller <$> co)) in Hrun.
  unfold createCompletionStream. cbv zeta.
  fold (streamOptions (ofCaller <$> co)). fold inner.
  unfold bind at 1. rewrite Hrun.
  pose proof (stream_after_log prompt (verboseOf (ofCaller <$> co)) R.1.1 R.1.2
                (settles provider prompt (length R.1.1) R.1.2)) as Hst.
  destruct R as [[calls [e|txt]] s']; cbn in *; rewrite <- ?app_assoc; cbn;
    rewrite <- ?app_assoc in Hst; cbn in Hst; by rewrite Hst.
Qed.

(** With a hook, [callsOf] is the hook called on the units in turn. *)
Lemma callsOf_hookTrace g (h : CallerHook US) s :
  hookTrace h (callsOf g (Some h) s).1.1.*1 s =
    (omap snd (callsOf g (Some h) s).1.1, (callsOf g (Some h) s).2) ∧
  Forall (λ c, is_Some c.2) (callsOf g (Some h) s).1.1.
Proof.
  revert s. induction g as [ev k IH|txt|e]; intros s; [|by split; [|constructor]..].
  cbn [callsOf fmap option_fmap option_map from_option].
  destruct (IH (flagOf (Some (h ev s).1)) (h ev s).2) as [IH1 IH2].
  destruct (callsOf _ (Some h) _) as [[calls leaf] s']. cbn in *.
  destruct (h ev s) as [r s1]. cbn in *. rewrite IH1. split; [done|].
  constructor; [by eexists|done].
Qed.

Lemma callsOf_unhooked g (s : US) :
  (callsOf g None s).2 = s ∧ Forall (λ c, c.2 = None) (callsOf g None s).1.1.
Proof.
  induction g as [ev k IH|txt|e]; [|by split; [|constructor]..].
  cbn [callsOf fmap option_fmap option_map from_option].
  destruct (IH (flagOf None)) as [IH1 IH2].
  destruct (callsOf _ None _) as [[calls leaf] s']. cbn in *.
  split; [done|]. by constructor.
Qed.

End CompletionRuns.

(** The calls a provider makes when it is answered as [answered] says are
    those of [callsOf]. *)
Lemma along_answered_callsOf {US} g (oh : option (CallerHook US)) s calls leaf :
  Along g calls leaf → answered oh s calls →
  map (λ c, (c.1, flagOf c.2)) (callsOf g oh s).1.1 = calls ∧ (callsOf g oh s).1.2 = leaf.
Proof.
  intros Hal. revert s. induction Hal as [txt|e|ev k b l r Hal IH]; intros s Hans; [done..|].
  cbn [callsOf]. destruct Hans as [-> Hans]. specialize (IH _ Hans).
  destruct (callsOf _ oh _) as [[cs lf] s']. cbn in *. by destruct IH as [<- <-].
Qed.

(** Every provider makes such calls, against every hook. *)
Lemma callsOf_along_answered {US} g (oh : option (CallerHook US)) s :
  Along g (map (λ c, (c.1, flagOf c.2)) (callsOf g oh s).1.1) (callsOf g oh s).1.2 ∧
  answered oh s (map (λ c, (c.1, flagOf c.2)) (callsOf g oh s).1.1).
Proof.
  revert s. induction g as [ev k IH|txt|e]; intros s; [|by split; [constructor|]..].
  cbn [callsOf].
  destruct (IH (flagOf ((λ h, (h ev s).1) <$> oh)) (from_option (λ h, (h ev s).2) s oh))
    as [IH1 IH2].
  destruct (callsOf _ oh _) as [[cs lf] s']. cbn in *.
  split; [by constructor|done].
Qed.

Lemma callsOf_hooked {US} g (oh : option (CallerHook US)) s :
  Forall (λ c, is_Some c.2 ↔ is_Some oh) (callsOf g oh s).1.1.
Proof.
  destruct oh as [h|].
  - destruct (callsOf_hookTrace g h s) as [_ Hall].
    eapply Forall_impl; [exact Hall|]. intros c Hc. by split.
  - destruct (callsOf_unhooked g s) as [_ Hall].
    eapply Forall_impl; [exact Hall|]. intros c ->. done.
Qed.

Section Against.
Context {US : Type} `{Imports}.

(** [createCompletion] on a provider whose [generate], answered by the
    caller's hook, makes the calls [calls] and settles as [leaf]. *)
Lemma createCompletion_against (provider : Provider US) prompt
    (co : option (CompletionOptions US)) s out s' t calls leaf :
  createCompletion provider prompt (ofCaller <$> co) s = (out, s', t) →
  Along (generate provider prompt (optionsWithDefaults (ofCaller <$> co))) calls leaf →
  answered (hookOf co) s calls →
  ∃ cs,
    map (λ c, (c.1, flagOf c.2)) cs = calls ∧
    Forall (λ c, is_Some c.2 ↔ is_Some (hookOf co)) cs ∧
    out = settles provider prompt (length calls) leaf ∧
    t = Generate prompt ::
          callsEvents (verboseOf (ofCaller <$> co)) false cs ++ [Returned leaf] ∧
    (∀ h, hookOf co = Some h → hookTrace h calls.*1 s = (omap snd cs, s')) ∧
    (hookOf co = None → s' = s).
Proof.
  rewrite createCompletion_caller_run. cbv zeta. intros [= <- <- <-] Hal Hans.
  destruct (along_answered_callsOf _ _ _ _ _ Hal Hans) as [Hc Hl].
  set (R := callsOf _ _ _) in *. exists R.1.1.
  split; [done|]. split; [apply callsOf_hooked|].
  assert (length calls = length R.1.1) as -> by (by rewrite <- Hc, length_map).
  assert (calls.*1 = R.1.1.*1) as -> by (by rewrite <- Hc, <- list_fmap_compose).
  rewrite <- Hl. split; [done|]. split; [done|]. split.
  - intros h Hh. unfold R. rewrite Hh. apply callsOf_hookTrace.
  - intros Hh. unfold R. rewrite Hh. apply callsOf_unhooked.
Qed.

(** [createCompletionStream] on such a provider. *)
Lemma createCompletionStream_against (provider : Provider US) prompt
    (co : option (CompletionOptions US)) s h s' t calls leaf :
  createCompletionStream provider prompt (ofCaller <$> co) s = (h, s', t) →
  Along (generate provider prompt
           (optionsWithDefaults (Some (streamOptions (ofCaller <$> co))))) calls leaf →
  answered (hookOf co) s calls →
  ∃ cs,
    map (λ c, (c.1, flagOf c.2)) cs = calls ∧
    Forall (λ c, is_Some c.2 ↔ is_Some (hookOf co)) cs ∧
    result h = settles provider prompt (length calls) leaf ∧
    tokens h = {| chunks := nonblank (map text calls.*1);
                  ended := match leaf with inr _ => true | inl _ => false end |} ∧
    t = Generate prompt :: callsEvents (verboseOf (ofCaller <$> co)) true cs ++
          [Returned leaf] ++ closing (result h) ∧
    (∀ hk, hookOf co = Some hk → hookTrace hk calls.*1 s = (omap snd cs, s')) ∧
    (hookOf co = None → s' = s).
Proof.
  rewrite createCompletionStream_caller_run. cbv zeta. intros [= <- <- <-] Hal Hans.
  destruct (along_answered_callsOf _ _ _ _ _ Hal Hans) as [Hc Hl].
  set (R := callsOf _ _ _) in *. exists R.1.1. cbn [result tokens].
  split; [done|]. split; [apply callsOf_hooked|].
  assert (length calls = length R.1.1) as -> by (by rewrite <- Hc, length_map).
  assert (calls.*1 = R.1.1.*1) as -> by (by rewrite <- Hc, <- list_fmap_compose).
  rewrite <- Hl, <- list_fmap_compose. split; [done|]. split; [done|]. split; [done|]. split.
  - intros hk Hh. unfold R. rewrite Hh. apply callsOf_hookTrace.
  - intros Hh. unfold R. rewrite Hh. apply callsOf_unhooked.
Qed.

End Against.

(** Builds the path of a concrete provider. *)
Ltac along_path :=
  repeat (cbn; first [apply along_done | apply along_fail | apply along_emit]).

(** ** [createCompletion] *)

(** C1. The flag the token callback returns to the provider is [false] at
    exactly the callback calls at which the caller's hook returns the
    boolean [false]. The callback calls in the log are calls the provider's
    [generate] makes, each answered as the policy says: [false] exactly
    when the hook, called on that unit, returned [false], [true] without a
    hook. With a hook, the hook is called on every unit, in order, what it
    returns is what the hook function returns on these units, and each call
    of the provider carries the flag "the hook did not return [false]"; if
    the hook returns [false] at call [k] and not before, the flag is
    [false] at call [k] and [true] at all earlier calls; if the hook never
    returns [false] (it returns [undefined] or anything else), or there is
    no hook, every flag is [true]. *)
Theorem createCompletion_continuation_flag {US} `{Imports} (provider : Provider US)
    prompt (co : option (CompletionOptions US)) s out s' t :
  createCompletion provider prompt (ofCaller <$> co) s = (out, s', t) →
  (∃ leaf, Along (generate provider prompt (optionsWithDefaults (ofCaller <$> co)))
                 (token_calls t) leaf) ∧
  answered (hookOf co) s (token_calls t) ∧
  (∀ h, hookOf co = Some h →
     (hook_calls t).*1 = units t ∧
     hook_returns t = (hookTrace h (units t) s).1 ∧
     token_calls t = map (λ c, (c.1, negb (is_false c.2))) (hook_calls t)) ∧
  (hookOf co = None → hook_calls t = [] ∧ Forall (λ b, b = true) (flags t)) ∧
  (∀ i, flags t !! i = Some false ↔ hook_returns t !! i = Some (VBool false)) ∧
  (∀ k, hook_returns t !! k = Some (VBool false) →
        (∀ j, j < k → hook_returns t !! j ≠ Some (VBool false)) →
        flags t !! k = Some false ∧ ∀ j, j < k → flags t !! j = Some true) ∧
  ((∀ r, r ∈ hook_returns t → r ≠ VBool false) → Forall (λ b, b = true) (flags t)).
Proof.
  rewrite createCompletion_caller_run. cbv zeta. intros [= <- <- <-].
  set (g := generate provider prompt (optionsWithDefaults (ofCaller <$> co))).
  set (R := callsOf g (hookOf co) s).
  set (t := Generate prompt :: _).
  assert (token_calls t = map (λ c, (c.1, flagOf c.2)) R.1.1) as Htok.
  { unfold t. change (token_calls (Generate prompt :: ?l)) with (token_calls l).
    rewrite token_calls_app, token_calls_callsEvents. apply app_nil_r. }
  assert (hook_calls t = omap (λ c, pair c.1 <$> c.2) R.1.1) as Hhook.
  { unfold t. change (hook_calls (Generate prompt :: ?l)) with (hook_calls l).
    rewrite hook_calls_app, hook_calls_callsEvents. apply app_nil_r. }
  assert (units t = R.1.1.*1) as Hu.
  { unfold units. by rewrite Htok, <- list_fmap_compose. }
  destruct (callsOf_along_answered g (hookOf co) s) as [Hal Hans]. fold R in Hal, Hans.
  pose proof (callsOf_hooked g (hookOf co) s) as Hf. fold R in Hf.
  assert (∀ h, hookOf co = Some h →
            (hook_calls t).*1 = units t ∧
            hook_returns t = (hookTrace h (units t) s).1 ∧
            token_calls t = map (λ c, (c.1, negb (is_false c.2))) (hook_calls t)) as Hyes.
  { intros h Hh. unfold hook_returns. rewrite Hu, Htok, Hhook, hook_returns_calls.
    assert (Forall (λ c, is_Some c.2) R.1.1) as Hall.
    { eapply Forall_impl; [exact Hf|]. intros c Hc. apply Hc. rewrite Hh. by eexists. }
    split; [by apply hook_units_calls|]. split; [|by apply hooked_calls].
    unfold R. rewrite Hh. by rewrite (proj1 (callsOf_hookTrace g h s)). }
  assert (hookOf co = None → hook_calls t = [] ∧ Forall (λ b, b = true) (flags t)) as Hno.
  { intros Hnone. unfold flags. rewrite Htok, Hhook. apply unhooked_calls.
    eapply Forall_impl; [exact Hf|]. intros c Hc. rewrite Hnone in Hc.
    destruct (c.2) as [r|] eqn:Hr; [|done].
    destruct (proj1 Hc) as [? [=]]. by eexists. }
  split; [exists R.1.2; by rewrite Htok|]. split; [by rewrite Htok|].
  split; [done|]. split; [done|].
  apply flags_of_returns.
  destruct (hookOf co) as [h|] eqn:Hh.
  - left. destruct (Hyes h eq_refl) as (_ & _ & Hmap).
    unfold flags, hook_returns. rewrite Hmap, <- !list_fmap_compose. done.
  - right. unfold hook_returns. destruct (Hno eq_refl) as [-> ?]. done.
Qed.

Lemma createCompletion_continuation_flag_witness :
  answered (Some stopAtSecond) 0
    (token_calls (@createCompletion nat sampleImports abcProvider "hi"
       (Some (ofCaller {| co_props := ∅; co_onToken := Some stopAtSecond |})) 0).2) ∧
  (hook_calls (@createCompletion nat sampleImports abcProvider "hi"
     (Some (ofCaller {| co_props := ∅; co_onToken := Some stopAtSecond |})) 0).2).*1 =
    [unit_ 1 "a" "a"; unit_ 2 "b" "ab"] ∧
  hook_returns (@createCompletion nat sampleImports abcProvider "hi"
     (Some (ofCaller {| co_props := ∅; co_onToken := Some stopAtSecond |})) 0).2 =
    (hookTrace stopAtSecond [unit_ 1 "a" "a"; unit_ 2 "b" "ab"] 0).1.
Proof.
  pose proof (@createCompletion_continuation_flag nat sampleImports abcProvider "hi"
                (Some {| co_props := ∅; co_onToken := Some stopAtSecond |}) 0 _ _ _ eq_refl)
    as (_ & Hans & Hyes & _).
  destruct (Hyes stopAtSecond eq_refl) as (Hunits & Hrets & _).
  exact (conj Hans (conj Hunits Hrets)).
Defined.

Example createCompletion_stop_at_second :
  let t := (@createCompletion nat sampleImports abcProvider "hi"
              (Some (ofCaller {| co_props := ∅; co_onToken := Some stopAtSecond |})) 0).2 in
  hook_returns t = [VUndefined; VBool false] ∧ flags t = [true; false].
Proof. split; reflexivity. Qed.

(** C2. When the provider's [generate], answered by the caller's hook, calls
    the token callback [n] times and resolves to the text [txt],
    [createCompletion] resolves to the result with [completion_tokens = n],
    [prompt_tokens] the length of the message, [total_tokens] their sum,
    role "assistant", content [txt] and the provider's model name; the
    callback calls it logs are these [n] calls, whatever the hook returned
    at them. *)
Theorem createCompletion_result {US} `{Imports} (provider : Provider US) prompt
    (co : option (CompletionOptions US)) s out s' t calls txt n :
  createCompletion provider prompt (ofCaller <$> co) s = (out, s', t) →
  Along (generate provider prompt (optionsWithDefaults (ofCaller <$> co))) calls (inr txt) →
  answered (hookOf co) s calls →
  length calls = n →
  out = Resolved
          {| llmodel := modelName provider;
             usage := {| prompt_tokens := String.length prompt;
                         completion_tokens := n;
                         total_tokens := String.length prompt + n |};
             message := {| role := "assistant"; content := txt |} |} ∧
  token_calls t = calls.
Proof.
  intros Hrun Hal Hans Hn.
  destruct (createCompletion_against _ _ _ _ _ _ _ _ _ Hrun Hal Hans)
    as (cs & Hcs & _ & -> & -> & _). rewrite Hn. split; [done|].
  change (token_calls (Generate prompt :: ?l)) with (token_calls l).
  by rewrite token_calls_app, token_calls_callsEvents, app_nil_r.
Qed.

Lemma createCompletion_result_witness :
  (@createCompletion nat sampleImports abcProvider "hi"
     (Some (ofCaller {| co_props := ∅; co_onToken := Some stopAtSecond |})) 0).1.1 =
  Resolved
    {| llmodel := "abc";
       usage := {| prompt_tokens := 2; completion_tokens := 2; total_tokens := 4 |};
       message := {| role := "assistant"; content := "ab" |} |}.
Proof.
  refine (proj1 (@createCompletion_result nat sampleImports abcProvider "hi"
            (Some {| co_props := ∅; co_onToken := Some stopAtSecond |}) 0 _ _ _
            [(unit_ 1 "a" "a", true); (unit_ 2 "b" "ab", false)] "ab" 2
            eq_refl _ _ eq_refl)).
  - along_path.
  - cbn. tauto.
Defined.

(** C5. When the provider's [generate], answered by the caller's hook,
    rejects with [e], [createCompletion] rejects with that same [e]; it
    entered [generate] once, with the caller's message, and resolved to
    nothing. *)
Theorem createCompletion_propagates_failure {US} `{Imports} (provider : Provider US)
    prompt (co : option (CompletionOptions US)) s out s' t calls e :
  createCompletion provider prompt (ofCaller <$> co) s = (out, s', t) →
  Along (generate provider prompt (optionsWithDefaults (ofCaller <$> co))) calls (inl e) →
  answered (hookOf co) s calls →
  out = Rejected e ∧ generate_prompts t = [prompt] ∧ generate_calls t = 1 ∧
  (∀ r, out ≠ Resolved r) ∧ token_calls t = calls.
Proof.
  intros Hrun Hal Hans.
  destruct (createCompletion_against _ _ _ _ _ _ _ _ _ Hrun Hal Hans)
    as (cs & Hcs & _ & -> & -> & _).
  assert (generate_prompts (Generate prompt ::
            callsEvents (verboseOf (ofCaller <$> co)) false cs ++ [Returned (inl e)]) =
          [prompt]) as Hgen.
  { change (generate_prompts (Generate prompt :: ?l)) with (prompt :: generate_prompts l).
    by rewrite generate_prompts_app, generate_prompts_callsEvents. }
  unfold generate_calls. rewrite Hgen. repeat split; try done.
  change (token_calls (Generate prompt :: ?l)) with (token_calls l).
  by rewrite token_calls_app, token_calls_callsEvents, app_nil_r.
Qed.

Lemma createCompletion_propagates_failure_witness :
  (@createCompletion nat sampleImports failingProvider "hi" None 0).1.1 =
    Rejected (Error "out of memory").
Proof.
  refine (proj1 (@createCompletion_propagates_failure nat sampleImports failingProvider
            "hi" None 0 _ _ _ [(unit_ 1 "a" "a", true)] (Error "out of memory")
            eq_refl _ _)).
  - along_path.
  - cbn. tauto.
Defined.

(** ** [createCompletionStream] *)

Section StreamFacts.
Context {US : Type} `{Imports}.

(** [createCompletionStream] called by a caller: the callback calls with
    their pushes, the provider settling, then the closing events. *)
Lemma createCompletionStream_caller (provider : Provider US) prompt
    (co : option (CompletionOptions US)) s :
  ∃ calls leaf s' v o,
    createCompletionStream provider prompt (ofCaller <$> co) s =
      ({| tokens :=
            {| chunks := nonblank (map (λ c, text c.1) calls);
               ended := match leaf with inr _ => true | inl _ => false end |};
          result := settles provider prompt (length calls) leaf |},
       s',
       Generate prompt :: callsEvents v true calls ++ [Returned leaf] ++
         closing (settles provider prompt (length calls) leaf)) ∧
    Along (generate provider prompt o) (map (λ c, (c.1, flagOf c.2)) calls) leaf ∧
    Forall (λ c, is_Some c.2 ↔ is_Some (hookOf co)) calls.
Proof.
  set (R := callsOf (generate provider prompt
                       (optionsWithDefaults (Some (streamOptions (ofCaller <$> co)))))
              (hookOf co) s).
  exists R.1.1, R.1.2, R.2, (verboseOf (ofCaller <$> co)). eexists.
  split; [apply createCompletionStream_caller_run|].
  split; [apply callsOf_along_answered|apply callsOf_hooked].
Qed.

End StreamFacts.

(** The events of the callback calls are debug lines, pushes, hook calls and
    callback returns, nothing else. *)
Lemma callsEvents_kind v st calls e :
  e ∈ callsEvents v st calls →
  match e with
  | ConsoleDebug _ _ | Push _ | HookCalled _ _ | Token _ _ => True
  | _ => False
  end.
Proof.
  induction calls as [|c calls IH]; [by intros ?%elem_of_nil|].
  cbn [callsEvents]. rewrite elem_of_app, elem_of_cons.
  intros [Hin|[->|Hin]]; [|done|by apply IH].
  apply list_elem_of_In in Hin.
  destruct c as [ev [r|]], v, st; cbn in Hin; intuition (by subst).
Qed.

Lemma hook_called_in_callsEvents v st calls ev r :
  HookCalled ev r ∈ callsEvents v st calls → (ev, Some r) ∈ calls.
Proof.
  induction calls as [|c calls IH]; [by intros ?%elem_of_nil|].
  cbn [callsEvents]. rewrite elem_of_app, !elem_of_cons.
  intros [Hin|[?|Hin]]; [|done|by right; apply IH].
  left. apply list_elem_of_In in Hin.
  destruct c as [ev' [r'|]], v, st; cbn in Hin; intuition (by simplify_eq).
Qed.

(** A provider that stops when told makes no call after a [false] flag. *)
Lemma stops_when_told_along g l leaf :
  stops_when_told g = true → Along g l leaf →
  ∀ pre post ev, l = pre ++ (ev, false) :: post → post = [].
Proof.
  intros Hstop Hal. induction Hal as [txt|e|ev0 k b l r Hal IH];
    intros pre post ev Hl.
  - by destruct pre.
  - by destruct pre.
  - cbn in Hstop. apply andb_true_iff in Hstop as [Hleaf Hrest].
    destruct pre as [|p pre]; simplify_eq/=.
    + inversion Hal; subst; try done.
      match goal with Hk : Emit _ _ = k false |- _ => by rewrite <- Hk in Hleaf end.
    + destruct b; [by eapply IH|].
      inversion Hal as [txt Hk Hnil|e Hk Hnil|ev1 k1 b1 l1 r1 Hal1 Hk Hcons]; subst.
      * by destruct pre.
      * by destruct pre.
      * by rewrite <- Hk in Hleaf.
Qed.

(** [push_before_hook], event by event. *)
Lemma push_before_hook_nil : push_before_hook [].
Proof. intros [|? ?] ? ? ? ?; done. Qed.

Lemma push_before_hook_cons e t :
  (∀ ev r, e ≠ HookCalled ev r) → push_before_hook t → push_before_hook (e :: t).
Proof.
  intros He Ht [|p pre] post ev r Heq; simplify_eq/=; [by destruct (He ev r)|].
  destruct (Ht pre post ev r eq_refl) as [pre' ->]. by exists (p :: pre').
Qed.

Lemma push_before_hook_pushed ev r t :
  push_before_hook t → push_before_hook (Push (text ev) :: HookCalled ev r :: t).
Proof.
  intros Ht [|p [|q pre]] post ev' r' Heq; simplify_eq/=.
  - by exists [].
  - destruct (Ht pre post ev' r' eq_refl) as [pre' ->].
    by exists (Push (text ev) :: HookCalled ev r :: pre').
Qed.

Lemma push_before_hook_calls v calls t :
  push_before_hook t → push_before_hook (callsEvents v true calls ++ t).
Proof.
  intros Ht. induction calls as [|[ev hk] calls IH]; [done|].
  cbn [callsEvents]. rewrite <- app_assoc. cbn [app].
  assert (push_before_hook (Token ev (flagOf hk) :: callsEvents v true calls ++ t)) as Htok
    by (by apply push_before_hook_cons).
  destruct hk as [r|], v; cbn;
    repeat first [ apply push_before_hook_pushed
                 | apply push_before_hook_cons; [done|] ]; done.
Qed.

Lemma nonblank_snoc l x : x ≠ "" → nonblank (l ++ [x]) = nonblank l ++ [x].
Proof.
  intros Hx. unfold nonblank. rewrite filter_app, filter_cons, filter_nil.
  by destruct (decide (x ≠ "")).
Qed.

Section StreamClaims.
Context {US : Type} `{Imports}.

(** The log of a caller's [createCompletionStream], read back. *)
Lemma createCompletionStream_caller_log (provider : Provider US) prompt
    (co : option (CompletionOptions US)) s h s' t :
  createCompletionStream provider prompt (ofCaller <$> co) s = (h, s', t) →
  ∃ leaf t0,
    t = t0 ++ closing (result h) ∧
    result h = settles provider prompt (length (token_calls t)) leaf ∧
    (∀ r, Returned r ∈ t → r = leaf) ∧
    tokens h = {| chunks := nonblank (map text (units t));
                  ended := match leaf with inr _ => true | inl _ => false end |} ∧
    pushes t0 = map text (units t) ∧
    (PushNull ∉ t0) ∧ (EmitEnd ∉ t0) ∧ (∀ o, Settled o ∉ t0).
Proof.
  destruct (createCompletionStream_caller provider prompt co s)
    as (calls & leaf & s'' & v & o & Hrun & _ & _).
  rewrite Hrun. intros [= <- <- <-]. cbn [result tokens].
  exists leaf, (Generate prompt :: callsEvents v true calls ++ [Returned leaf]).
  set (out := settles provider prompt (length calls) leaf).
  assert (token_calls (Generate prompt :: callsEvents v true calls ++
                         [Returned leaf] ++ closing out) =
          map (λ c, (c.1, flagOf c.2)) calls) as Htok.
  { change (token_calls (Generate prompt :: ?l)) with (token_calls l).
    rewrite !token_calls_app, token_calls_callsEvents.
    destruct out; apply app_nil_r. }
  rewrite (cons_middle (Returned leaf)).
  unfold units. rewrite Htok, length_map, <- !list_fmap_compose.
  assert (∀ e, e ∈ Generate prompt :: callsEvents v true calls ++ [Returned leaf] →
               e = Generate prompt ∨ e = Returned leaf ∨ e ∈ callsEvents v true calls)
    as Hin.
  { intros e. rewrite elem_of_cons, elem_of_app, list_elem_of_singleton. tauto. }
  split; [by simpl; rewrite <- app_assoc|].
  split; [done|]. split; [|split; [done|split]].
  - intros r [?|Hr]%elem_of_cons; [done|].
    rewrite app_assoc, elem_of_app in Hr. destruct Hr as [Hr|Hr].
    + by apply returned_in_callsEvents in Hr.
    + apply list_elem_of_In in Hr. destruct out; cbn in Hr; intuition discriminate.
  - change (pushes (Generate prompt :: ?l)) with (pushes l).
    rewrite pushes_app, pushes_callsEvents. apply app_nil_r.
  - repeat split; [intros Hbad..|intros ? Hbad];
      apply Hin in Hbad as [?|[?|Hbad]]; try done;
      by apply callsEvents_kind in Hbad.
Qed.

(** What a caller's [createCompletionStream] logs before it closes the
    stream, on a provider making the calls [cs]. *)
Lemma stream_body_log prompt v (cs : list (TokenEvent * option JSValue)) leaf :
  let t0 := Generate prompt :: callsEvents v true cs ++ [Returned leaf] in
  token_calls t0 = map (λ c, (c.1, flagOf c.2)) cs ∧
  pushes t0 = map (λ c, text c.1) cs ∧
  hook_calls t0 = omap (λ c, pair c.1 <$> c.2) cs ∧
  (PushNull ∉ t0) ∧ (EmitEnd ∉ t0) ∧ (∀ o, Settled o ∉ t0).
Proof.
  intros t0. unfold t0.
  assert (∀ e, e ∈ Generate prompt :: callsEvents v true cs ++ [Returned leaf] →
               e = Generate prompt ∨ e = Returned leaf ∨ e ∈ callsEvents v true cs)
    as Hin.
  { intros e. rewrite elem_of_cons, elem_of_app, list_elem_of_singleton. tauto. }
  split; [|split; [|split]].
  - change (token_calls (Generate prompt :: ?l)) with (token_calls l).
    by rewrite token_calls_app, token_calls_callsEvents, app_nil_r.
  - change (pushes (Generate prompt :: ?l)) with (pushes l).
    by rewrite pushes_app, pushes_callsEvents, app_nil_r.
  - change (hook_calls (Generate prompt :: ?l)) with (hook_calls l).
    by rewrite hook_calls_app, hook_calls_callsEvents, app_nil_r.
  - repeat split; [intros Hbad..|intros ? Hbad];
      apply Hin in Hbad as [?|[?|Hbad]]; try done;
      by apply callsEvents_kind in Hbad.
Qed.

(** C3, amended. When the provider's [generate], answered by the caller's
    hook, resolves to [txt] after emitting its units, the stream holds
    exactly the non-empty texts of these units, in the order of generation
    (pushing an empty text adds no chunk), and is closed; the log ends with
    the end of stream being pushed and signalled, followed by the deferred
    result settling, nothing being closed or settled before, and the text
    of every unit pushed before, in order; the deferred result resolves to
    a result whose content is [txt]. *)
Theorem createCompletionStream_streams_units (provider : Provider US) prompt
    (co : option (CompletionOptions US)) s h s' t calls txt :
  createCompletionStream provider prompt (ofCaller <$> co) s = (h, s', t) →
  Along (generate provider prompt
           (optionsWithDefaults (Some (streamOptions (ofCaller <$> co))))) calls (inr txt) →
  answered (hookOf co) s calls →
  chunks (tokens h) = nonblank (map text calls.*1) ∧
  ended (tokens h) = true ∧
  ∃ t0 r,
    t = t0 ++ [PushNull; EmitEnd; Settled (Resolved r)] ∧
    token_calls t0 = calls ∧
    pushes t0 = map text calls.*1 ∧
    (PushNull ∉ t0) ∧ (EmitEnd ∉ t0) ∧ (∀ o, Settled o ∉ t0) ∧
    result h = Resolved r ∧
    content (message r) = txt.
Proof.
  intros Hrun Hal Hans.
  destruct (createCompletionStream_against _ _ _ _ _ _ _ _ _ Hrun Hal Hans)
    as (cs & Hcs & _ & Hres & Htok & Ht & _).
  rewrite Htok. split; [done|]. split; [done|].
  destruct (stream_body_log prompt (verboseOf (ofCaller <$> co)) cs (inr txt))
    as (Htc & Hp & _ & Hnull & Hend & Hset).
  exists (Generate prompt :: callsEvents (verboseOf (ofCaller <$> co)) true cs ++
            [Returned (inr txt)]). eexists.
  rewrite Hres in Ht |- *. cbn in Ht.
  split; [by rewrite Ht; simpl; rewrite <- app_assoc|].
  split; [by rewrite Htc|].
  split; [by rewrite Hp, <- Hcs, <- !list_fmap_compose|].
  split; [done|]. split; [done|]. split; [done|].
  cbn. by split.
Qed.

End StreamClaims.

(** C3, as stated, fails on a unit whose text is empty: the provider emits
    the units "" and "b" and resolves, and the stream holds the one chunk
    "b", not the texts of the two units. *)
Lemma createCompletionStream_drops_empty_text :
  let run := @createCompletionStream nat sampleImports blankProvider "hi" None 0 in
  Along (generate blankProvider "hi"
           (@optionsWithDefaults nat sampleImports
              (Some (@streamOptions nat sampleImports None))))
        [(unit_ 1 "" "", true); (unit_ 2 "b" "b", true)] (inr "b") ∧
  token_calls run.2 = [(unit_ 1 "" "", true); (unit_ 2 "b" "b", true)] ∧
  result run.1.1 =
    Resolved {| llmodel := "blank";
                usage := {| prompt_tokens := 2; completion_tokens := 2; total_tokens := 4 |};
                message := {| role := "assistant"; content := "b" |} |} ∧
  chunks (tokens run.1.1) = ["b"] ∧
  chunks (tokens run.1.1) ≠ map text (units run.2).
Proof.
  cbv zeta. split; [along_path|]. by repeat split.
Qed.

Lemma createCompletionStream_streams_units_witness :
  chunks (tokens (@createCompletionStream nat sampleImports abcProvider "hi" None 0).1.1) =
    ["a"; "b"; "c"].
Proof.
  refine (proj1 (@createCompletionStream_streams_units nat sampleImports abcProvider "hi"
            None 0 _ _ _
            [(unit_ 1 "a" "a", true); (unit_ 2 "b" "ab", true); (unit_ 3 "c" "abc", true)]
            "abc" eq_refl _ _)).
  - along_path.
  - cbn. tauto.
Defined.

(** When the provider's [generate] rejects, the deferred result rejects with
    the same error, and the stream is left open: nothing pushes the end of
    stream or signals it. *)
Lemma createCompletionStream_failure {US} `{Imports} (provider : Provider US) prompt
    (co : option (CompletionOptions US)) s h s' t e :
  createCompletionStream provider prompt (ofCaller <$> co) s = (h, s', t) →
  Returned (inl e) ∈ t →
  result h = Rejected e ∧ ended (tokens h) = false ∧ (PushNull ∉ t) ∧ (EmitEnd ∉ t).
Proof.
  intros Hrun Hret.
  destruct (createCompletionStream_caller_log provider prompt co s h s' t Hrun)
    as (leaf & t0 & Ht & Hres & Hleaf & Htok & _ & Hnull & Hend & _).
  rewrite <- (Hleaf _ Hret) in *. rewrite Htok. cbn in Hres.
  rewrite Hres in Ht. cbn in Ht. subst t.
  repeat split; [done|intros Hbad..];
    apply elem_of_app in Hbad as [?|Hbad]; try done;
    by apply list_elem_of_singleton in Hbad.
Qed.

(** C4, on the code. With a provider that emits "a" and then rejects with
    [Error "out of memory"], the deferred result rejects with that error,
    but the stream is never closed: the end of stream is neither pushed nor
    signalled, and a consumer iterating the stream waits for ever. *)
Theorem createCompletionStream_open_after_failure :
  let run := @createCompletionStream nat sampleImports failingProvider "hi" None 0 in
  Returned (inl (Error "out of memory")) ∈ run.2 ∧
  result run.1.1 = Rejected (Error "out of memory") ∧
  tokens run.1.1 = {| chunks := ["a"]; ended := false |} ∧
  (PushNull ∉ run.2) ∧ (EmitEnd ∉ run.2) ∧
  (@iterate nat sampleImports failingProvider "hi" None 5 GenStart 0).1.1 =
    (["a"], Some IterPending).
Proof.
  cbv zeta.
  assert (Returned (inl (Error "out of memory")) ∈
            (@createCompletionStream nat sampleImports failingProvider "hi" None 0).2) as Hret.
  { apply list_elem_of_In. vm_compute. tauto. }
  destruct (@createCompletionStream_failure nat sampleImports failingProvider "hi" None 0
              _ _ _ (Error "out of memory") eq_refl Hret) as (Hres & _ & Hnull & Hend).
  repeat split; try done.
Qed.

(** C10, as stated, fails for a provider that does not stop when told: the
    hook returns [false] at the first unit "a", the provider goes on with
    "b" and "c", and the last chunk of the stream is "c". *)
Lemma createCompletionStream_stop_ignored :
  let run := @createCompletionStream nat sampleImports deafProvider "hi"
               (Some (ofCaller {| co_props := ∅; co_onToken := Some stopAtFirst |})) 0 in
  HookCalled (unit_ 1 "a" "a") (VBool false) ∈ run.2 ∧
  flags run.2 = [false; false; false] ∧
  last (chunks (tokens run.1.1)) = Some "c" ∧
  last (chunks (tokens run.1.1)) ≠ Some (text (unit_ 1 "a" "a")).
Proof.
  cbv zeta. split; [|by repeat split].
  apply list_elem_of_In. vm_compute. tauto.
Qed.

(** C10, amended. In [createCompletionStream], on a provider whose
    [generate], answered by the caller's hook, makes the calls [calls]: the
    callback calls in the log are these calls, the text of every unit is
    pushed onto the stream, in order, the hook, if there is one, is called
    on every unit, and the text of a unit is pushed before the hook is
    called on it: in the log, the event just before each call of the hook
    is the push of that unit's text. When the hook returns [false] at a
    unit, the provider stops when told and the text of that unit is not
    empty, that text is the last chunk of the stream. *)
Theorem createCompletionStream_pushes_before_hook {US} `{Imports} (provider : Provider US)
    prompt (co : option (CompletionOptions US)) s h s' t calls leaf :
  createCompletionStream provider prompt (ofCaller <$> co) s = (h, s', t) →
  Along (generate provider prompt
           (optionsWithDefaults (Some (streamOptions (ofCaller <$> co))))) calls leaf →
  answered (hookOf co) s calls →
  token_calls t = calls ∧
  pushes t = map text calls.*1 ∧
  (∀ hk, hookOf co = Some hk → (hook_calls t).*1 = calls.*1) ∧
  push_before_hook t ∧
  (stops_when_told
     (generate provider prompt
        (optionsWithDefaults (Some (streamOptions (ofCaller <$> co))))) = true →
   ∀ ev, HookCalled ev (VBool false) ∈ t → text ev ≠ "" →
         last (chunks (tokens h)) = Some (text ev)).
Proof.
  intros Hrun Hal Hans.
  destruct (createCompletionStream_against _ _ _ _ _ _ _ _ _ Hrun Hal Hans)
    as (cs & Hcs & Hf & Hres & Htok & Ht & _).
  set (v := verboseOf (ofCaller <$> co)) in *.
  set (out := result h) in *.
  destruct (stream_body_log prompt v cs leaf) as (Htc & Hp & Hhc & _).
  assert (token_calls (closing out) = [] ∧ pushes (closing out) = [] ∧
          hook_calls (closing out) = []) as (Hc1 & Hc2 & Hc3) by (by destruct out).
  assert (t = (Generate prompt :: callsEvents v true cs ++ [Returned leaf]) ++ closing out)
    as Ht' by (by rewrite Ht; simpl; rewrite <- app_assoc).
  assert (calls.*1 = cs.*1) as Hunits by (by rewrite <- Hcs, <- list_fmap_compose).
  split; [|split; [|split; [|split]]].
  - by rewrite Ht', token_calls_app, Htc, Hc1, app_nil_r.
  - by rewrite Ht', pushes_app, Hp, Hc2, app_nil_r, Hunits, <- list_fmap_compose.
  - intros hk Hh. rewrite Ht', hook_calls_app, Hhc, Hc3, app_nil_r, Hunits.
    apply hook_units_calls. eapply Forall_impl; [exact Hf|].
    intros c Hc. apply Hc. rewrite Hh. by eexists.
  - rewrite Ht. apply push_before_hook_cons; [done|]. apply push_before_hook_calls.
    destruct out; cbn;
      repeat (apply push_before_hook_cons; [done|]); apply push_before_hook_nil.
  - intros Hstop ev Hin Hne. rewrite Ht in Hin.
    apply elem_of_cons in Hin as [?|Hin]; [done|].
    apply elem_of_app in Hin as [Hin|Hin].
    + apply hook_called_in_callsEvents, list_elem_of_split in Hin
        as (pre & post & Hsplit).
      rewrite <- Hcs, Hsplit, map_app in Hal. cbn in Hal.
      pose proof (stops_when_told_along _ _ _ Hstop Hal _ _ _ eq_refl) as Hpost.
      apply fmap_nil_inv in Hpost. subst post.
      rewrite Htok. cbn [chunks]. rewrite Hunits, Hsplit, fmap_app, map_app. cbn [fmap list_fmap map].
      rewrite nonblank_snoc by done. apply last_snoc.
    + apply list_elem_of_In in Hin. destruct out; cbn in Hin; intuition discriminate.
Qed.

Lemma createCompletionStream_pushes_before_hook_witness :
  last (chunks (tokens (@createCompletionStream nat sampleImports abcProvider "hi"
          (Some (ofCaller {| co_props := ∅; co_onToken := Some stopAtSecond |})) 0).1.1)) =
    Some "b".
Proof.
  refine (proj2 (proj2 (proj2 (proj2
            (@createCompletionStream_pushes_before_hook nat sampleImports
               abcProvider "hi" (Some {| co_props := ∅; co_onToken := Some stopAtSecond |})
               0 _ _ _ [(unit_ 1 "a" "a", true); (unit_ 2 "b" "ab", false)] (inr "ab")
               eq_refl _ _)))) _ (unit_ 2 "b" "ab") _ _).
  - along_path.
  - cbn. tauto.
  - reflexivity.
  - apply list_elem_of_In. vm_compute. tauto.
  - done.
Defined.

(** ** [createCompletionGenerator] *)

Lemma append_empty_r (x : string) : x +:+ "" = x.
Proof.
  induction x as [|c x IH]; [done|].
  change (String c (x +:+ "") = String c x). by rewrite IH.
Qed.

Lemma append_associative (x y z : string) : (x +:+ y) +:+ z = x +:+ y +:+ z.
Proof.
  induction x as [|c x IH]; [done|].
  change (String c ((x +:+ y) +:+ z) = String c (x +:+ y +:+ z)). by rewrite IH.
Qed.

Lemma joined_app l1 l2 : joined (l1 ++ l2) = joined l1 +:+ joined l2.
Proof.
  induction l1 as [|x l1 IH]; [done|].
  change (x +:+ joined (l1 ++ l2) = (x +:+ joined l1) +:+ joined l2).
  by rewrite IH, append_associative.
Qed.

(** Dropping the empty strings does not change what is joined. *)
Lemma joined_nonblank l : joined (nonblank l) = joined l.
Proof.
  unfold nonblank. induction l as [|x l IH]; [done|].
  rewrite filter_cons. change (joined (x :: l)) with (x +:+ joined l).
  destruct (decide (x ≠ "")) as [Hx|Hx].
  - change (joined (x :: ?r)) with (x +:+ joined r). by rewrite IH.
  - rewrite IH. by destruct (decide (x = "")) as [->|].
Qed.

(** Whatever the schedule, the reads return what was buffered, cut
    into runs of consecutive chunks. *)
Lemma joined_reads sched l : joined (reads sched l) = joined l.
Proof.
  revert l. induction sched as [|k sched IH]; intros [|x l]; try done.
  - cbn [reads]. change (joined [?y]) with (y +:+ ""). apply append_empty_r.
  - cbn [reads]. change (joined (?y :: ?r)) with (y +:+ joined r) at 1.
    rewrite IH, <- joined_app. by rewrite take_drop.
Qed.

Lemma reads_shorter sched l : (length (reads sched l) ≤ length l)%nat.
Proof.
  revert l. induction sched as [|k sched IH]; intros [|x l]; cbn; try lia.
  specialize (IH (drop k l)). rewrite length_drop in IH. lia.
Qed.

Lemma reads_nonblank sched l :
  Forall (λ y : string, y ≠ "") l → Forall (λ y : string, y ≠ "") (reads sched l).
Proof.
  revert l. induction sched as [|k sched IH]; intros [|x l] Hl; try by constructor.
  - inversion Hl; subst. repeat constructor. cbn. by destruct x.
  - inversion Hl; subst. cbn [reads]. constructor.
    + cbn. by destruct x.
    + apply IH. cbn. by apply Forall_drop.
Qed.

(** When every read finds one chunk buffered, the reads are the chunks. *)
Lemma reads_one_by_one sched l :
  Forall (λ k, k = 0) sched → (length l ≤ length sched)%nat → reads sched l = l.
Proof.
  revert l. induction sched as [|k sched IH]; intros [|x l] Hk Hlen;
    cbn [length] in *; try done; try lia.
  inversion Hk; subst. cbn [reads take drop]. unfold joined at 1. cbn [foldr].
  rewrite append_empty_r. f_equal. apply IH; [done|lia].
Qed.

Lemma stream_step_nonblank st e :
  Forall (λ y : string, y ≠ "") (chunks st) →
  Forall (λ y : string, y ≠ "") (chunks (stream_step st e)).
Proof.
  intros Hst. destruct e; try done. cbn.
  destruct (ended st); [done|]. destruct (decide (chunk = "")); [done|].
  cbn. apply Forall_app. by repeat constructor.
Qed.

(** No chunk of a stream is empty. *)
Lemma stream_after_nonblank t : Forall (λ y : string, y ≠ "") (chunks (stream_after t)).
Proof.
  unfold stream_after.
  assert (∀ st, Forall (λ y : string, y ≠ "") (chunks st) →
                Forall (λ y : string, y ≠ "") (chunks (foldl stream_step st t))) as Hgen.
  { induction t as [|e t IH]; intros st Hst; [done|].
    cbn. by apply IH, stream_step_nonblank. }
  apply Hgen. constructor.
Qed.

Section GeneratorFacts.
Context {US : Type} `{Imports}.

Lemma createCompletionStream_tokens (provider : Provider US) prompt options s h s' t :
  createCompletionStream provider prompt options s = (h, s', t) → tokens h = stream_after t.
Proof.
  unfold createCompletionStream. cbv zeta.
  destruct (bind _ _ s) as [[q s1] t1]. by intros [= <- <- <-].
Qed.

Lemma createCompletionGenerator_run (provider : Provider US) prompt options sched s h s' t :
  createCompletionStream provider prompt options s = (h, s', t) →
  createCompletionGenerator provider prompt options sched s =
    (reads sched (chunks (tokens h)), settleIteration (ended (tokens h)) (result h), s', t).
Proof.
  intros Hrun. unfold createCompletionGenerator, bind, ret. rewrite Hrun.
  by rewrite app_nil_r.
Qed.

(** For a provider that has made all its calls before the first read, two
    calls of [next()] exhaust the generator: the first reads all the chunks
    joined, the second settles. *)
Lemma iterate_exhausts (provider : Provider US) prompt options fuel s h s' t :
  createCompletionStream provider prompt options s = (h, s', t) →
  (2 ≤ fuel)%nat →
  iterate provider prompt options fuel GenStart s =
    (reads [] (chunks (tokens h)),
     Some (settleIteration (ended (tokens h)) (result h)), s', t).
Proof.
  intros Hrun Hfuel. destruct fuel as [|[|fuel]]; [lia..|].
  cbn [iterate next]. unfold bind at 1 2. rewrite Hrun. unfold ret at 1.
  destruct (chunks (tokens h)) as [|c cs].
  - cbn. destruct (ended (tokens h)), (result h); cbn; by rewrite !app_nil_r.
  - cbn [resume]. unfold bind, ret. cbn.
    destruct (ended (tokens h)), (result h); cbn; by rewrite !app_nil_r.
Qed.

(** C6, amended. For every provider, message and options and every schedule
    of reads, the generator iterated to its end does to the outside world
    what [createCompletionStream] does on the same arguments, and yields the
    chunks of that stream cut into runs of consecutive chunks, each run
    joined into one string: joined together the chunks yielded are the
    chunks of the stream joined together, none is empty, and there are at
    most as many. When every read finds one chunk buffered the chunks
    yielded are the chunks of the stream; for a provider that has made all
    its calls before the first read they are joined into one, and two calls
    of [next()] exhaust the generator. It returns [r] exactly when the
    stream is closed and the deferred result resolves to [r], throws [e]
    exactly when the stream is closed and the deferred result rejects with
    [e], and stays pending exactly when the stream is never closed. *)
Theorem createCompletionGenerator_matches_stream (provider : Provider US) prompt
    (options : option (Options US)) sched s h s' t :
  createCompletionStream provider prompt options s = (h, s', t) →
  ∃ ys fin,
    createCompletionGenerator provider prompt options sched s = (ys, fin, s', t) ∧
    joined ys = joined (chunks (tokens h)) ∧
    Forall (λ y : string, y ≠ "") ys ∧
    (length ys ≤ length (chunks (tokens h)))%nat ∧
    (Forall (λ k, k = 0) sched → (length (chunks (tokens h)) ≤ length sched)%nat →
       ys = chunks (tokens h)) ∧
    (sched = [] → ∀ fuel, (2 ≤ fuel)%nat →
       iterate provider prompt options fuel GenStart s = (ys, Some fin, s', t)) ∧
    (∀ r, fin = IterReturn r ↔ ended (tokens h) = true ∧ result h = Resolved r) ∧
    (∀ e, fin = IterThrow e ↔ ended (tokens h) = true ∧ result h = Rejected e) ∧
    (fin = IterPending ↔ ended (tokens h) = false).
Proof.
  intros Hrun.
  exists (reads sched (chunks (tokens h))),
         (settleIteration (ended (tokens h)) (result h)).
  split; [by apply createCompletionGenerator_run|].
  split; [apply joined_reads|].
  split; [apply reads_nonblank; rewrite (createCompletionStream_tokens _ _ _ _ _ _ _ Hrun);
          apply stream_after_nonblank|].
  split; [apply reads_shorter|].
  split; [apply reads_one_by_one|].
  split; [intros -> fuel Hfuel; by apply iterate_exhausts|].
  destruct (ended (tokens h)), (result h) as [r0|e0]; cbn;
    repeat split; try (intros [??]); try intros ?; simplify_eq; done.
Qed.

End GeneratorFacts.

(** C6, as stated, fails for a provider that emits "a", "b" and "c" before
    the generator first reads the stream: the stream holds the three chunks
    and the generator yields the one chunk "abc". *)
Lemma createCompletionGenerator_joins_chunks :
  chunks (tokens (@createCompletionStream nat sampleImports abcProvider "hi" None 0).1.1) =
    ["a"; "b"; "c"] ∧
  (@iterate nat sampleImports abcProvider "hi" None 4 GenStart 0).1.1.1 = ["abc"] ∧
  (@iterate nat sampleImports abcProvider "hi" None 4 GenStart 0).1.1.1 ≠
    chunks (tokens (@createCompletionStream nat sampleImports abcProvider "hi" None 0).1.1).
Proof. by repeat split. Qed.

Lemma createCompletionGenerator_matches_stream_witness :
  ∃ ys fin,
    (@createCompletionGenerator nat sampleImports abcProvider "hi" None [0; 1] 0).1.1 =
      (ys, fin) ∧
    joined ys = "abc".
Proof.
  destruct (@createCompletionGenerator_matches_stream nat sampleImports abcProvider "hi"
              None [0; 1] 0 _ _ _ eq_refl) as (ys & fin & Hrun & Hj & _).
  exists ys, fin. split; [exact (f_equal (λ x, x.1.1) Hrun)|exact Hj].
Defined.

(** * Further properties *)

(** ** The libraries path *)

Lemma split_without_sep sep s : occurs sep s = false → split sep s = [s].
Proof.
  induction s as [|c s IH]; [done|]. cbn [split occurs].
  intros [Hc Hs]%orb_false_iff. by rewrite Hc, IH.
Qed.

Lemma split_entries sep s : Forall (λ x, occurs sep x = false) (split sep s).
Proof.
  induction s as [|c s IH]; [by repeat constructor|]. cbn [split].
  destruct (Ascii.eqb c sep) eqn:Hc; [by constructor|].
  destruct (split sep s) as [|seg segs]; [by repeat constructor; cbn; rewrite Hc|].
  inversion IH; subst. constructor; [|done]. cbn. by rewrite Hc.
Qed.

Lemma split_append sep x y :
  occurs sep x = false → split sep (x +:+ String sep y) = x :: split sep y.
Proof.
  induction x as [|c x IH]; simpl.
  - intros _. by rewrite Ascii.eqb_refl.
  - intros [Hc Hx]%orb_false_iff. by rewrite Hc, IH.
Qed.

(** Joining entries that are free of the separator and splitting again gives
    the entries back. *)
Lemma split_join sep l :
  l ≠ [] → Forall (λ x, occurs sep x = false) l →
  split sep (join (String sep EmptyString) l) = l.
Proof.
  induction l as [|x l IH]; [done|]. intros _ Hall.
  inversion Hall as [|?? Hx Hl]; subst.
  destruct l as [|y l].
  - by apply split_without_sep.
  - rewrite join_cons by done.
    change (String sep EmptyString +:+ ?r) with (String sep r).
    rewrite split_append by done. by rewrite IH.
Qed.

Lemma filter_all {A} (P : A → Prop) `{∀ x, Decision (P x)} (l : list A) :
  Forall P l → filter P l = l.
Proof.
  induction 1 as [|x l Hx _ IH]; [done|].
  by rewrite filter_cons_True, IH.
Qed.

Lemma filter_none {A} (P : A → Prop) `{∀ x, Decision (P x)} (l : list A) :
  Forall (λ x, ¬ P x) l → filter P l = [].
Proof.
  induction 1 as [|x l Hx _ IH]; [done|].
  by rewrite filter_cons_False.
Qed.

Section LibrariesPath.
Context `{Imports}.

(** X1. A libraries path all of whose entries exist is handed on unchanged;
    a libraries path none of whose entries exists becomes the empty
    string. *)
Theorem existingPaths_all_or_none (librariesPath : string) :
  (Forall (λ p, existsSync p = true) (split ";"%char librariesPath) →
     existingPaths librariesPath = librariesPath) ∧
  (Forall (λ p, existsSync p ≠ true) (split ";"%char librariesPath) →
     existingPaths librariesPath = "").
Proof.
  unfold existingPaths. split; intros Hall.
  - rewrite filter_all by done. apply join_split.
  - by rewrite filter_none.
Qed.

(** X2. When some entry of the libraries path exists, splitting the path
    that is handed on at ";" gives exactly the existing entries of the
    original path, in their order: none is lost, merged or cut. Filtering a
    path a second time changes nothing. *)
Theorem existingPaths_entries (librariesPath : string) :
  let kept := filter (λ p, existsSync p = true) (split ";"%char librariesPath) in
  (kept ≠ [] → split ";"%char (existingPaths librariesPath) = kept) ∧
  existingPaths (existingPaths librariesPath) = existingPaths librariesPath.
Proof.
  intros kept.
  assert (kept ≠ [] → split ";"%char (existingPaths librariesPath) = kept) as Hsplit.
  { intros Hne. unfold existingPaths. fold kept. apply split_join; [done|].
    unfold kept. apply Forall_forall. intros p [_ Hp]%list_elem_of_filter.
    revert p Hp. apply Forall_forall, split_entries. }
  split; [done|].
  destruct kept as [|p kept'] eqn:Hkept.
  - unfold existingPaths at 2 3. fold kept. rewrite Hkept. cbn [join].
    unfold existingPaths. cbn [split]. rewrite filter_cons. by case_decide.
  - unfold existingPaths at 1. rewrite Hsplit by done.
    rewrite filter_all.
    + unfold existingPaths. fold kept. by rewrite Hkept.
    + rewrite <- Hkept. unfold kept. apply Forall_forall.
      by intros q [Hq _]%list_elem_of_filter.
Qed.

End LibrariesPath.

Example existingPaths_sample :
  @existingPaths sampleImports "/lib;/opt/lib;;/lib" = "/lib;/lib".
Proof. reflexivity. Qed.

(** ** More on [loadModel] *)

Section LoadModelMore.
Context `{Imports}.

(** Leaving the options out is passing [{}]. *)
Lemma loadModel_default_parameter name options :
  loadModel name options = loadModel name (Some (default ∅ options)).
Proof. by destruct options. Qed.

(** X3. What the collaborators throw comes out of [loadModel] unchanged. A
    rejection of the model resolver is the rejection of [loadModel], and
    nothing is constructed. An exception of the native constructor is the
    rejection of [loadModel] whatever the type is, valid or not: the type is
    not looked at. *)
Theorem loadModel_collaborator_errors name (options : option (gmap string JSValue)) :
  let lo := loadOptions (default ∅ options) in
  (∀ e, retrieveModel name (retrieveOptions lo) = inl e →
     loadModel name options = (Rejected e, [Retrieve name (retrieveOptions lo)])) ∧
  (∀ cfg lp e,
     retrieveModel name (retrieveOptions lo) = inr cfg →
     get lo "librariesPath" = VStr lp →
     LLModel_new (llmOptions name lo (existingPaths lp)) = inl e →
     fst (loadModel name options) = Rejected e ∧
     constructions (snd (loadModel name options)) = [llmOptions name lo (existingPaths lp)]).
Proof.
  intros lo. rewrite loadModel_default_parameter. split.
  - intros e Hret. by apply loadModel_resolution_fails.
  - intros cfg lp e Hret Hlp Hnew. unfold loadModel. cbv zeta.
    change (default ∅ (Some (default ∅ options))) with (default ∅ options).
    fold lo. rewrite Hret, Hlp, Hnew. by destruct (truthy _).
Qed.

(** X4. Whatever the options and the collaborators, [loadModel] resolves the
    model exactly once, as the first thing it does, and constructs at most
    one native handle. When it resolves to a wrapper, it constructed exactly
    one: the wrapper holds the handle that constructor call returned and the
    configuration the resolver returned. *)
Theorem loadModel_resolves_once name (options : option (gmap string JSValue)) :
  let lo := loadOptions (default ∅ options) in
  let out := fst (loadModel name options) in
  let t := snd (loadModel name options) in
  head t = Some (Retrieve name (retrieveOptions lo)) ∧
  resolutions t = [(name, retrieveOptions lo)] ∧
  (length (constructions t) ≤ 1)%nat ∧
  (∀ m, out = Resolved m →
     ∃ o handle cfg,
       constructions t = [o] ∧
       LLModel_new o = inr handle ∧
       retrieveModel name (retrieveOptions lo) = inr cfg ∧
       (m = InferenceModel handle cfg ∨ m = EmbeddingModel handle cfg)).
Proof.
  intros lo. rewrite loadModel_default_parameter. unfold loadModel. cbv zeta.
  change (default ∅ (Some (default ∅ options))) with (default ∅ options). fold lo.
  destruct (retrieveModel name (retrieveOptions lo)) as [e|cfg] eqn:Hret;
    [by cbn; repeat split; [lia|]|].
  destruct (get lo "librariesPath") as [| | | |lp] eqn:Hlp;
    try by (cbn; repeat split; [lia|]).
  destruct (LLModel_new _) as [e|handle] eqn:Hnew.
  - destruct (truthy (get lo "verbose")); cbn; by repeat split; [lia|].
  - destruct (truthy (get lo "verbose")), (eq_str (get lo "type") "embedding"),
      (eq_str (get lo "type") "inference"); cbn;
      (repeat split; [lia|]); intros m [= <-]; eauto 10.
Qed.

(** X5. Any type the caller supplies that is not one of the two strings is
    rejected by its printed value, strings or not, a number being printed
    in plain decimal as long as it is a safe integer; a type the caller
    sets to [undefined] does not fall back to the default "inference". This
    is so once the model has resolved, the libraries path is a string and
    the native constructor has returned. *)
Theorem loadModel_rejects_other_types name (options : gmap string JSValue) v cfg lp handle :
  options !! "type" = Some v →
  printable v = true →
  eq_str v "embedding" = false →
  eq_str v "inference" = false →
  retrieveModel name (retrieveOptions (loadOptions options)) = inr cfg →
  get (loadOptions options) "librariesPath" = VStr lp →
  LLModel_new (llmOptions name (loadOptions options) (existingPaths lp)) = inr handle →
  fst (loadModel name (Some options)) =
    Rejected (Error ("Invalid model type: " +:+ to_string v)).
Proof.
  intros Hv _ He Hi Hret Hlp Hnew.
  rewrite (loadModel_dispatch name options cfg lp handle Hret Hlp Hnew).
  by rewrite (get_loadOptions_supplied options "type" v Hv), He, Hi.
Qed.

(** X6. When the caller leaves the type out, or passes no options at all,
    and the model resolves, the libraries path is a string and the native
    constructor returns a handle, [loadModel] resolves to an
    [InferenceModel] wrapper. *)
Theorem loadModel_default_type name (options : option (gmap string JSValue)) cfg lp handle :
  default ∅ options !! "type" = None →
  retrieveModel name (retrieveOptions (loadOptions (default ∅ options))) = inr cfg →
  get (loadOptions (default ∅ options)) "librariesPath" = VStr lp →
  LLModel_new (llmOptions name (loadOptions (default ∅ options)) (existingPaths lp))
    = inr handle →
  fst (loadModel name options) = Resolved (InferenceModel handle cfg).
Proof.
  intros Ht Hret Hlp Hnew. rewrite loadModel_default_parameter.
  rewrite (loadModel_dispatch name _ cfg lp handle Hret Hlp Hnew).
  by rewrite (get_loadOptions_default _ "type" Ht).
Qed.

(** X7. Once the model has resolved and the libraries path is a string, the
    native constructor is called once, with the model name passed through
    [appendBinSuffixIfMissing], with the model path the resolver was given,
    and with the caller's device, context size and GPU layers, or "cpu",
    2048 and 100 where the caller left them out; the resolver was given the
    caller's model path, download permission and verbosity, or the default
    directory, [true] and [false]. *)
Theorem loadModel_native_options name (options : gmap string JSValue) cfg lp :
  retrieveModel name (retrieveOptions (loadOptions options)) = inr cfg →
  get (loadOptions options) "librariesPath" = VStr lp →
  ∃ o r,
    constructions (snd (loadModel name (Some options))) = [o] ∧
    resolutions (snd (loadModel name (Some options))) = [(name, r)] ∧
    model_name o = appendBinSuffixIfMissing name ∧
    model_path o = ro_modelPath r ∧
    ro_modelPath r = default (VStr DEFAULT_DIRECTORY) (options !! "modelPath") ∧
    ro_allowDownload r = default (VBool true) (options !! "allowDownload") ∧
    ro_verbose r = default (VBool false) (options !! "verbose") ∧
    ro_modelConfigFile r = default VUndefined (options !! "modelConfigFile") ∧
    device o = default (VStr "cpu") (options !! "device") ∧
    nCtx o = default (VNum 2048) (options !! "nCtx") ∧
    ngl o = default (VNum 100) (options !! "ngl").
Proof.
  intros Hret Hlp.
  exists (llmOptions name (loadOptions options) (existingPaths lp)),
         (retrieveOptions (loadOptions options)).
  assert (∀ k d, get defaultLoadOptions k = d →
                 get (loadOptions options) k = default d (options !! k)) as Hget.
  { intros k d Hd. destruct (options !! k) as [v|] eqn:Hk.
    - by apply get_loadOptions_supplied.
    - by rewrite get_loadOptions_default. }
  split; [|split].
  - unfold loadModel. cbv zeta. change (default ∅ (Some options)) with options.
    rewrite Hret, Hlp. by repeat case_match.
  - unfold loadModel. cbv zeta. change (default ∅ (Some options)) with options.
    rewrite Hret, Hlp. by repeat case_match.
  - cbn [model_name model_path device nCtx ngl llmOptions retrieveOptions
         ro_modelPath ro_allowDownload ro_verbose ro_modelConfigFile].
    repeat split; try (by apply Hget).
Qed.

End LoadModelMore.

Example loadModel_offline :
  @loadModel offlineImports "model" None =
    (Rejected (Error "Model not found"),
     [Retrieve "model" (@retrieveOptions (@loadOptions offlineImports ∅))]).
Proof. reflexivity. Qed.

Example loadModel_broken_addon :
  fst (@loadModel brokenAddonImports "model" (Some {["type" := VStr "chat"]})) =
    Rejected (Error "Failed to load model").
Proof. reflexivity. Qed.

Lemma loadModel_rejects_other_types_witness :
  fst (@loadModel sampleImports "model" (Some {["type" := VUndefined]})) =
    Rejected (Error "Invalid model type: undefined").
Proof.
  refine (@loadModel_rejects_other_types sampleImports "model" {["type" := VUndefined]}
            VUndefined ∅ "/lib;/opt/lib" tt _ _ _ _ _ _ _); reflexivity.
Defined.

Lemma loadModel_default_type_witness :
  fst (@loadModel sampleImports "model" None) = Resolved (@InferenceModel sampleImports tt ∅).
Proof.
  refine (@loadModel_default_type sampleImports "model" None ∅ "/lib;/opt/lib" tt
            _ _ _ _); reflexivity.
Defined.

Lemma loadModel_native_options_witness :
  ∃ o, constructions (snd (@loadModel sampleImports "model" (Some {["ngl" := VNum 0]}))) = [o] ∧
       ngl o = VNum 0 ∧ nCtx o = VNum 2048 ∧ library_path o = "/lib".
Proof.
  destruct (@loadModel_native_options sampleImports "model" {["ngl" := VNum 0]} ∅
              "/lib;/opt/lib" ltac:(reflexivity) ltac:(reflexivity))
    as (o & r & Ho & _ & _ & _ & _ & _ & _ & _ & _ & Hctx & Hngl).
  exists o. split; [done|]. split; [done|]. split; [done|].
  injection Ho as <-. reflexivity.
Defined.

(** ** More on [createCompletion] *)

Lemma debug_lines_app t1 t2 : debug_lines (t1 ++ t2) = debug_lines t1 ++ debug_lines t2.
Proof. apply omap_app. Qed.

Lemma debug_lines_callsEvents v st calls :
  debug_lines (callsEvents v st calls) =
    if v then map (λ c, (tokenId c.1, text c.1)) calls else [].
Proof.
  induction calls as [|c calls IH]; [by destruct v|].
  cbn [callsEvents]. rewrite debug_lines_app.
  change (debug_lines (Token c.1 (flagOf c.2) :: callsEvents v st calls))
    with (debug_lines (callsEvents v st calls)).
  rewrite IH. destruct c as [ev [r|]], v, st; reflexivity.
Qed.

Lemma quiet_callsEvents v st calls :
  List.filter (λ e, negb (debug_event e)) (callsEvents v st calls) = callsEvents false st calls.
Proof.
  induction calls as [|c calls IH]; [done|].
  cbn [callsEvents]. rewrite List.filter_app. cbn [List.filter debug_event negb].
  rewrite IH. destruct c as [ev [r|]], v, st; reflexivity.
Qed.

Lemma unstreamed_callsEvents v calls :
  List.filter (λ e, negb (stream_event e)) (callsEvents v true calls) = callsEvents v false calls.
Proof.
  induction calls as [|c calls IH]; [done|].
  cbn [callsEvents]. rewrite List.filter_app. cbn [List.filter stream_event negb].
  rewrite IH. destruct c as [ev [r|]], v; reflexivity.
Qed.


Section CompletionMore.
Context {US : Type} `{Imports}.

(** What a caller's [createCompletion] logs, in terms of [callsOf]. *)
Lemma createCompletion_caller_units provider prompt (co : option (CompletionOptions US))
    s out s' t :
  createCompletion provider prompt (ofCaller <$> co) s = (out, s', t) →
  let R := callsOf (generate provider prompt (optionsWithDefaults (ofCaller <$> co)))
             (hookOf co) s in
  s' = R.2 ∧ units t = R.1.1.*1 ∧
  hook_calls t = omap (λ c, pair c.1 <$> c.2) R.1.1 ∧
  debug_lines t =
    (if verboseOf (ofCaller <$> co) then map (λ c, (tokenId c.1, text c.1)) R.1.1 else []).
Proof.
  rewrite createCompletion_caller_run. intros [= <- <- <-] R. fold R.
  split; [done|]. split; [|split].
  - unfold units. change (token_calls (Generate prompt :: ?l)) with (token_calls l).
    rewrite token_calls_app, token_calls_callsEvents, app_nil_r.
    by rewrite <- list_fmap_compose.
  - change (hook_calls (Generate prompt :: ?l)) with (hook_calls l).
    by rewrite hook_calls_app, hook_calls_callsEvents, app_nil_r.
  - change (debug_lines (Generate prompt :: ?l)) with (debug_lines l).
    by rewrite debug_lines_app, debug_lines_callsEvents, app_nil_r.
Qed.

(** X8. [createCompletion] calls the caller's hook once on every unit the
    provider emits, in the order of emission and with the unit's own
    arguments, and the caller's state is what these calls make of it: each
    call starts from the state the previous one left. Nothing else touches
    the caller's state; without a hook it is left as it was. *)
Theorem createCompletion_threads_hook provider prompt (co : option (CompletionOptions US))
    s out s' t :
  createCompletion provider prompt (ofCaller <$> co) s = (out, s', t) →
  (∀ h, hookOf co = Some h →
     (hook_calls t).*1 = units t ∧
     hookTrace h (units t) s = (hook_returns t, s')) ∧
  (hookOf co = None → hook_calls t = [] ∧ s' = s).
Proof.
  intros Hrun.
  destruct (createCompletion_caller_units _ _ _ _ _ _ _ Hrun) as (-> & Hu & Hh & _).
  unfold hook_returns. rewrite Hu, Hh, hook_returns_calls. split.
  - intros h ->. destruct (callsOf_hookTrace
      (generate provider prompt (optionsWithDefaults (ofCaller <$> co))) h s) as [Ht Hall].
    split; [by apply hook_units_calls|done].
  - intros ->. destruct (callsOf_unhooked
      (generate provider prompt (optionsWithDefaults (ofCaller <$> co))) s) as [Hs Hall].
    split; [|done]. by apply unhooked_calls.
Qed.

(** X9. With verbose options [createCompletion] writes one debug line per
    unit, carrying the unit's id and text, in the order of emission; without,
    it writes none. Verbose is the caller's [verbose] if the caller supplies
    one, else the one of [DEFAULT_PROMPT_CONTEXT] if it has one, else
    [false]. *)
Theorem createCompletion_debug_lines provider prompt (co : option (CompletionOptions US))
    s out s' t :
  createCompletion provider prompt (ofCaller <$> co) s = (out, s', t) →
  debug_lines t =
    (if verboseOf (ofCaller <$> co)
     then map (λ ev, (tokenId ev, text ev)) (units t) else []) ∧
  verboseOf (ofCaller <$> co) =
    truthy (default (default (VBool false) (DEFAULT_PROMPT_CONTEXT !! "verbose"))
                    (co ≫= λ c, co_props c !! "verbose")).
Proof.
  intros Hrun.
  destruct (createCompletion_caller_units _ _ _ _ _ _ _ Hrun) as (_ & Hu & _ & Hd).
  split.
  - rewrite Hd, Hu. destruct (verboseOf _); [|done]. by rewrite <- list_fmap_compose.
  - unfold verboseOf, get. f_equal.
    assert (∀ m : gmap string JSValue,
              default VUndefined
                ((m ∪ (DEFAULT_PROMPT_CONTEXT ∪ {["verbose" := VBool false]})) !! "verbose") =
              default (default (VBool false) (DEFAULT_PROMPT_CONTEXT !! "verbose"))
                      (m !! "verbose")) as Hm.
    { intros m. destruct (m !! "verbose") as [v|] eqn:Hv.
      - by rewrite (lookup_union_Some_l _ _ _ _ Hv).
      - rewrite lookup_union_r by done.
        destruct (DEFAULT_PROMPT_CONTEXT !! "verbose") as [v|] eqn:Hdc.
        + by rewrite (lookup_union_Some_l _ _ _ _ Hdc).
        + by rewrite lookup_union_r. }
    destruct co as [c|]; [apply Hm|].
    cbn [fmap option_fmap option_map default from_option id props
         defaultCompletionOptions spreadOptions mbind option_bind].
    unfold spread. rewrite Hm.
    destruct (DEFAULT_PROMPT_CONTEXT !! "verbose") as [v|] eqn:Hdc.
    + by rewrite (lookup_union_Some_l _ _ _ _ Hdc).
    + by rewrite lookup_union_r.
Qed.

(** X10. Leaving the options out is the same as passing an empty options
    object, for [createCompletion] and for [createCompletionStream]. *)
Theorem completion_without_options (provider : Provider US) prompt s :
  createCompletion provider prompt None s =
    createCompletion provider prompt (Some {| props := ∅; onToken := None |}) s ∧
  createCompletionStream provider prompt None s =
    createCompletionStream provider prompt (Some {| props := ∅; onToken := None |}) s.
Proof.
  assert (∀ m : gmap string JSValue, spread m m = spread m ∅) as Hsp.
  { intros m. unfold spread. by rewrite (idemp (∪) m), (left_id ∅ (∪) m). }
  split.
  - unfold createCompletion, spreadOptions. cbn [default props onToken defaultCompletionOptions].
    by rewrite Hsp.
  - unfold createCompletionStream, createCompletion, spreadOptions.
    cbn [default props onToken defaultCompletionOptions].
    by rewrite Hsp.
Qed.

(** X11. [createCompletion] itself never touches a stream or a deferred
    result; entering [generate] with the caller's message is the first thing
    it does and [generate] settling is the last: the callback is not called
    before or after. *)
Theorem createCompletion_quiet provider prompt (co : option (CompletionOptions US))
    s out s' t :
  createCompletion provider prompt (ofCaller <$> co) s = (out, s', t) →
  Forall (λ e, stream_event e = false) t ∧
  head t = Some (Generate prompt) ∧
  ∃ t0 leaf,
    t = Generate prompt :: t0 ++ [Returned leaf] ∧
    Forall (λ e, match e with Generate _ | Returned _ => False | _ => True end) t0.
Proof.
  rewrite createCompletion_caller_run. intros [= <- <- <-].
  set (R := callsOf _ _ _). set (v := verboseOf _).
  assert (∀ e, e ∈ callsEvents v false R.1.1 →
            stream_event e = false ∧
            match e with Generate _ | Returned _ => False | _ => True end) as Hin.
  { intros e He. assert (Hk := callsEvents_kind _ _ _ _ He).
    destruct e; try done.
    exfalso. assert (chunk ∈ pushes (callsEvents v false R.1.1)) as Hp.
    { unfold pushes. apply list_elem_of_omap. by exists (Push chunk). }
    rewrite pushes_callsEvents in Hp. by apply elem_of_nil in Hp. }
  split; [|split; [done|]].
  - constructor; [done|]. apply Forall_app. split; [|by repeat constructor].
    apply Forall_forall. intros e He. by apply Hin.
  - exists (callsEvents v false R.1.1), R.1.2. split; [done|].
    apply Forall_forall. intros e He. by apply Hin.
Qed.

End CompletionMore.

Lemma createCompletion_threads_hook_witness :
  hookTrace stopAtSecond [unit_ 1 "a" "a"; unit_ 2 "b" "ab"] 0 =
    ([VUndefined; VBool false], 2).
Proof.
  exact (proj2 (proj1 (@createCompletion_threads_hook nat sampleImports abcProvider "hi"
           (Some {| co_props := ∅; co_onToken := Some stopAtSecond |}) 0 _ _ _ eq_refl)
           stopAtSecond eq_refl)).
Defined.

Lemma createCompletion_debug_lines_witness :
  debug_lines (@createCompletion nat sampleImports abcProvider "hi"
                 (Some (ofCaller {| co_props := {["verbose" := VNum 1]};
                                    co_onToken := None |})) 0).2 =
    [(1%Z, "a"); (2%Z, "b"); (3%Z, "c")].
Proof.
  exact (proj1 (@createCompletion_debug_lines nat sampleImports abcProvider "hi"
           (Some {| co_props := {["verbose" := VNum 1]}; co_onToken := None |})
           0 _ _ _ eq_refl)).
Defined.

Lemma createCompletion_quiet_witness :
  head (@createCompletion nat sampleImports failingProvider "hi" None 0).2 =
    Some (Generate "hi").
Proof.
  exact (proj1 (proj2 (@createCompletion_quiet nat sampleImports failingProvider "hi"
           None 0 _ _ _ eq_refl))).
Defined.

Section CompletionCompared.
Context {US : Type} `{Imports}.

(** X12. Logging is observation only. Two calls of [createCompletion] with
    the same hook on a provider that behaves the same for both sets of
    options settle the same way, leave the caller's state the same and,
    debug lines apart, log the same events, whatever [verbose] is in each. *)
Theorem createCompletion_verbose_is_silent provider prompt
    (co1 co2 : option (CompletionOptions US)) s out1 s1 t1 out2 s2 t2 :
  hookOf co1 = hookOf co2 →
  generate provider prompt (optionsWithDefaults (ofCaller <$> co1)) =
    generate provider prompt (optionsWithDefaults (ofCaller <$> co2)) →
  createCompletion provider prompt (ofCaller <$> co1) s = (out1, s1, t1) →
  createCompletion provider prompt (ofCaller <$> co2) s = (out2, s2, t2) →
  out1 = out2 ∧ s1 = s2 ∧
  List.filter (λ e, negb (debug_event e)) t1 = List.filter (λ e, negb (debug_event e)) t2.
Proof.
  intros Hh Hg. rewrite !createCompletion_caller_run. cbv zeta. rewrite Hh, Hg.
  intros [= <- <- <-] [= <- <- <-]. split; [done|]. split; [done|].
  cbn [List.filter debug_event negb]. f_equal.
  rewrite !List.filter_app, !quiet_callsEvents. done.
Qed.

(** X13. In [createCompletionStream] the caller's hook keeps its say: with a
    hook, the flag the provider gets back at a unit is [false] exactly when
    the hook returned [false] at that unit; without a hook every flag is
    [true], the installed hook returning nothing. *)
Theorem createCompletionStream_continuation_flag provider prompt
    (co : option (CompletionOptions US)) s h s' t :
  createCompletionStream provider prompt (ofCaller <$> co) s = (h, s', t) →
  (is_Some (hookOf co) →
     token_calls t = map (λ c, (c.1, negb (is_false c.2))) (hook_calls t)) ∧
  (hookOf co = None → hook_calls t = [] ∧ Forall (λ b, b = true) (flags t)).
Proof.
  destruct (createCompletionStream_caller provider prompt co s)
    as (calls & leaf & s'' & v & o & Hrun & _ & Hf).
  rewrite Hrun. intros [= <- <- <-].
  set (out := settles provider prompt (length calls) leaf).
  assert (token_calls (Generate prompt :: callsEvents v true calls ++
                         Returned leaf :: closing out) =
          map (λ c, (c.1, flagOf c.2)) calls) as Htok.
  { change (token_calls (Generate prompt :: ?l)) with (token_calls l).
    rewrite token_calls_app, token_calls_callsEvents.
    destruct out; apply app_nil_r. }
  assert (hook_calls (Generate prompt :: callsEvents v true calls ++
                        Returned leaf :: closing out) =
          omap (λ c, pair c.1 <$> c.2) calls) as Hhook.
  { change (hook_calls (Generate prompt :: ?l)) with (hook_calls l).
    rewrite hook_calls_app, hook_calls_callsEvents.
    destruct out; apply app_nil_r. }
  unfold flags. rewrite Htok, Hhook. split.
  - intros Hsome. apply hooked_calls.
    eapply Forall_impl; [exact Hf|]. intros c Hc. by apply Hc.
  - intros Hnone. apply unhooked_calls.
    eapply Forall_impl; [exact Hf|]. intros c Hc. rewrite Hnone in Hc.
    destruct (c.2) as [r|] eqn:Hr; [|done].
    destruct (proj1 Hc) as [? [=]]. by eexists.
Qed.

(** X14. For a provider that reads only the data properties of its options,
    streaming changes nothing but the stream: the deferred result of
    [createCompletionStream] settles as the promise of [createCompletion]
    does on the same arguments, the caller's state ends the same, and, the
    events of the stream and of the deferred result apart, the two log the
    same events. *)
Theorem createCompletionStream_agrees provider prompt
    (co : option (CompletionOptions US)) s out s1 t1 h s2 t2 :
  (∀ o1 o2 : Options US,
     props o1 = props o2 → generate provider prompt o1 = generate provider prompt o2) →
  createCompletion provider prompt (ofCaller <$> co) s = (out, s1, t1) →
  createCompletionStream provider prompt (ofCaller <$> co) s = (h, s2, t2) →
  result h = out ∧ s2 = s1 ∧ List.filter (λ e, negb (stream_event e)) t2 = t1.
Proof.
  intros Hprops.
  rewrite createCompletion_caller_run, createCompletionStream_caller_run. cbv zeta.
  rewrite (Hprops (optionsWithDefaults (Some (streamOptions (ofCaller <$> co))))
                  (optionsWithDefaults (ofCaller <$> co))) by done.
  intros [= <- <- <-] [= <- <- <-]. cbn [result].
  split; [done|]. split; [done|].
  cbn [List.filter stream_event negb]. f_equal.
  rewrite List.filter_app, unstreamed_callsEvents. f_equal.
  by destruct (settles _ _ _ _).
Qed.

(** X15. The stream of [createCompletionStream] is closed exactly when the
    deferred result resolves. The deferred result settles once, as the last
    event. The chunks of the stream are the non-empty texts of the units
    emitted, also when the provider rejects after emitting some, and when
    the deferred result resolves its [completion_tokens] is the number of
    units emitted, which the number of chunks does not exceed. *)
Theorem createCompletionStream_lifecycle provider prompt
    (co : option (CompletionOptions US)) s h s' t :
  createCompletionStream provider prompt (ofCaller <$> co) s = (h, s', t) →
  (ended (tokens h) = true ↔ ∃ r, result h = Resolved r) ∧
  (∃ t0, t = t0 ++ [Settled (result h)] ∧ ∀ o, Settled o ∉ t0) ∧
  chunks (tokens h) = nonblank (map text (units t)) ∧
  (∀ r, result h = Resolved r →
     completion_tokens (usage r) = length (units t) ∧
     (length (chunks (tokens h)) ≤ completion_tokens (usage r))%nat).
Proof.
  intros Hrun.
  destruct (createCompletionStream_caller_log provider prompt co s h s' t Hrun)
    as (leaf & t0 & Ht & Hres & _ & Htok & _ & Hnull & Hend & Hset).
  rewrite Htok. cbn [chunks ended]. split; [|split; [|split; [done|]]].
  - rewrite Hres. destruct leaf; cbn; split; try done; [by intros [? ?]|by eauto].
  - destruct (result h) as [r|e] eqn:Hr; cbn in Ht.
    + exists (t0 ++ [PushNull; EmitEnd]). split; [by rewrite <- app_assoc|].
      intros o [?|Hin]%elem_of_app; [by eapply Hset|].
      apply list_elem_of_In in Hin. cbn in Hin. intuition discriminate.
    + exists t0. split; [done|]. apply Hset.
  - intros r Hr. rewrite Hr in Hres.
    assert (length (token_calls t) = length (units t)) as Hlen
      by (unfold units; by rewrite length_map).
    rewrite Hlen in Hres. clear Ht Hlen.
    destruct leaf as [e|txt]; [done|]. injection Hres as ->.
    cbn [usage completion_tokens]. split; [done|]. unfold nonblank.
    etrans; [apply length_filter|]. by rewrite length_map.
Qed.

End CompletionCompared.

Lemma createCompletion_verbose_is_silent_witness :
  (@createCompletion nat sampleImports abcProvider "hi"
     (Some (ofCaller {| co_props := {["verbose" := VBool true]};
                        co_onToken := Some stopAtSecond |})) 0).1 =
  (@createCompletion nat sampleImports abcProvider "hi"
     (Some (ofCaller {| co_props := ∅; co_onToken := Some stopAtSecond |})) 0).1.
Proof.
  edestruct (@createCompletion_verbose_is_silent nat sampleImports abcProvider "hi"
               (Some {| co_props := {["verbose" := VBool true]};
                        co_onToken := Some stopAtSecond |})
               (Some {| co_props := ∅; co_onToken := Some stopAtSecond |})
               0) as (Ho & Hs & _);
    [reflexivity | reflexivity | vm_compute; reflexivity | vm_compute; reflexivity |].
  reflexivity.
Defined.

Lemma createCompletionStream_continuation_flag_witness :
  flags (@createCompletionStream nat sampleImports abcProvider "hi" None 0).2 =
    [true; true; true].
Proof.
  destruct (@createCompletionStream_continuation_flag nat sampleImports abcProvider "hi"
              None 0 _ _ _ eq_refl) as [_ Hno].
  destruct (Hno eq_refl) as [_ Hall]. reflexivity.
Defined.

Lemma createCompletionStream_agrees_witness :
  result (@createCompletionStream nat sampleImports abcProvider "hi"
            (Some (ofCaller {| co_props := ∅; co_onToken := Some stopAtSecond |})) 0).1.1 =
  (@createCompletion nat sampleImports abcProvider "hi"
     (Some (ofCaller {| co_props := ∅; co_onToken := Some stopAtSecond |})) 0).1.1.
Proof.
  exact (proj1 (@createCompletionStream_agrees nat sampleImports abcProvider "hi"
           (Some {| co_props := ∅; co_onToken := Some stopAtSecond |})
           0 _ _ _ _ _ _ (λ _ _ _, eq_refl) eq_refl eq_refl)).
Defined.

Lemma createCompletionStream_lifecycle_witness :
  chunks (tokens (@createCompletionStream nat sampleImports failingProvider "hi" None 0).1.1) =
    ["a"].
Proof.
  exact (proj1 (proj2 (proj2 (@createCompletionStream_lifecycle nat sampleImports
           failingProvider "hi" None 0 _ _ _ eq_refl)))).
Defined.

(** ** More on [createCompletionGenerator] *)

Lemma nonblank_all l : Forall (λ y : string, y ≠ "") (nonblank l).
Proof. apply Forall_forall. by intros y [Hy _]%list_elem_of_filter. Qed.

Section GeneratorMore.
Context {US : Type} `{Imports}.

(** The generator of a caller on a provider whose [generate], answered by
    the caller's hook, makes the calls [calls] and settles as [leaf]. *)
Lemma createCompletionGenerator_against (provider : Provider US) prompt
    (co : option (CompletionOptions US)) sched s calls leaf :
  Along (generate provider prompt
           (optionsWithDefaults (Some (streamOptions (ofCaller <$> co))))) calls leaf →
  answered (hookOf co) s calls →
  ∃ s' t,
    createCompletionGenerator provider prompt (ofCaller <$> co) sched s =
      (reads sched (nonblank (map text calls.*1)),
       settleIteration (match leaf with inr _ => true | inl _ => false end)
                       (settles provider prompt (length calls) leaf),
       s', t) ∧
    token_calls t = calls ∧
    Returned leaf ∈ t ∧
    (∀ e, leaf = inl e → (PushNull ∉ t) ∧ (EmitEnd ∉ t)).
Proof.
  intros Hal Hans.
  destruct (createCompletionStream provider prompt (ofCaller <$> co) s)
    as [[h s'] t] eqn:Hrun.
  destruct (createCompletionStream_against _ _ _ _ _ _ _ _ _ Hrun Hal Hans)
    as (cs & Hcs & _ & Hres & Htok & Ht & _).
  exists s', t.
  rewrite (createCompletionGenerator_run _ _ _ _ _ _ _ _ Hrun), Htok, Hres.
  cbn [chunks ended]. split; [done|].
  destruct (stream_body_log prompt (verboseOf (ofCaller <$> co)) cs leaf)
    as (Htc & _ & _ & Hnull & Hend & _).
  set (t0 := Generate prompt :: callsEvents (verboseOf (ofCaller <$> co)) true cs ++
               [Returned leaf]) in *.
  assert (t = t0 ++ closing (result h)) as Ht'
    by (by rewrite Ht; unfold t0; simpl; rewrite <- app_assoc).
  split; [|split].
  - rewrite Ht', token_calls_app, Htc, Hcs. destruct (result h); apply app_nil_r.
  - rewrite Ht'. apply elem_of_app. left. unfold t0.
    apply elem_of_cons. right. apply elem_of_app. right. by apply list_elem_of_singleton.
  - intros e ->. rewrite Ht', Hres. cbn [settles closing].
    split; intros [?|Hbad]%elem_of_app; try done;
      by apply list_elem_of_singleton in Hbad.
Qed.

(** X16. The generator starts the completion once. On a provider that has
    made all its calls before the first read, whatever the number of calls
    of [next()], one or more, the log and the caller's state are those of
    one call of [createCompletionStream] on the same arguments, in which
    [generate] is entered once, with the caller's message. The first call
    of [next()] yields all the chunks of the stream joined into one, if
    there are any, and the next call settles the iteration, as returned
    when the stream is closed and the deferred result resolved and as
    pending when the stream is left open. *)
Theorem createCompletionGenerator_starts_once (provider : Provider US) prompt
    (co : option (CompletionOptions US)) s h s' t :
  createCompletionStream provider prompt (ofCaller <$> co) s = (h, s', t) →
  generate_prompts t = [prompt] ∧
  ∀ fuel, (1 ≤ fuel)%nat →
    ∃ fin,
      iterate provider prompt (ofCaller <$> co) fuel GenStart s =
        (reads [] (chunks (tokens h)), fin, s', t) ∧
      (fin = None ↔ fuel = 1 ∧ chunks (tokens h) ≠ []) ∧
      (∀ r, fin = Some r → r = settleIteration (ended (tokens h)) (result h)).
Proof.
  intros Hrun. split.
  - destruct (createCompletionStream_caller provider prompt co s)
      as (calls & leaf & s'' & v & o & Hrun' & _).
    rewrite Hrun' in Hrun. injection Hrun as <- <- <-.
    change (generate_prompts (Generate prompt :: ?l)) with (prompt :: generate_prompts l).
    rewrite !generate_prompts_app, generate_prompts_callsEvents.
    by destruct (settles _ _ _ _).
  - intros [|[|fuel]] Hfuel; [lia| |].
    + cbn [iterate next]. unfold bind at 1 2. rewrite Hrun. unfold ret at 1.
      destruct (chunks (tokens h)) as [|c cs].
      * exists (Some (settleIteration (ended (tokens h)) (result h))).
        split; [|split].
        -- cbn. destruct (ended (tokens h)), (result h); cbn; by rewrite !app_nil_r.
        -- split; [done|by intros [_ ?]].
        -- by intros r [= <-].
      * exists None. split; [|done]. cbn. by rewrite !app_nil_r.
    + rewrite (iterate_exhausts _ _ _ _ _ _ _ _ Hrun) by lia.
      eexists. split; [done|]. split; [|by intros r [= <-]].
      split; [done|]. intros [? _]. lia.
Qed.

(** X17. When the provider's [generate], answered by the caller's hook,
    resolves to [txt] after making the calls [calls], the generator of a
    caller, whatever the schedule of its reads, yields the texts of the
    units in the order of emission, cut into runs of consecutive texts each
    joined into one chunk: joined together the chunks yielded are the texts
    joined together, and none is empty. When every read finds one chunk
    buffered, the chunks yielded are the non-empty texts. It then returns
    the result of the completion: its content is [txt], its
    [completion_tokens] the number of units, its model name the
    provider's. *)
Theorem createCompletionGenerator_returns (provider : Provider US) prompt
    (co : option (CompletionOptions US)) sched s calls txt :
  Along (generate provider prompt
           (optionsWithDefaults (Some (streamOptions (ofCaller <$> co))))) calls (inr txt) →
  answered (hookOf co) s calls →
  ∃ ys r s' t,
    createCompletionGenerator provider prompt (ofCaller <$> co) sched s =
      (ys, IterReturn r, s', t) ∧
    token_calls t = calls ∧
    joined ys = joined (map text calls.*1) ∧
    Forall (λ y : string, y ≠ "") ys ∧
    (Forall (λ k, k = 0) sched → (length calls ≤ length sched)%nat →
       ys = nonblank (map text calls.*1)) ∧
    content (message r) = txt ∧
    completion_tokens (usage r) = length calls ∧
    llmodel r = modelName provider.
Proof.
  intros Hal Hans.
  destruct (createCompletionGenerator_against provider prompt co sched s calls (inr txt)
              Hal Hans) as (s' & t & Hrun & Htc & _).
  eexists _, _, s', t. split; [exact Hrun|]. split; [done|].
  split; [by rewrite joined_reads, joined_nonblank|].
  split; [apply reads_nonblank, nonblank_all|].
  split; [|done].
  intros Hsched Hlen. apply reads_one_by_one; [done|].
  etrans; [apply length_filter|]. by rewrite length_map, length_fmap.
Qed.

(** X18. When the provider's [generate], answered by the caller's hook,
    rejects after making the calls [calls], the generator of a caller,
    whatever the schedule of its reads, yields the texts of the units
    emitted before the rejection, cut into runs each joined into one chunk,
    and then stays pending: the end of the stream it reads is neither
    pushed nor signalled, so it neither returns nor throws the error. *)
Theorem createCompletionGenerator_pending (provider : Provider US) prompt
    (co : option (CompletionOptions US)) sched s calls e :
  Along (generate provider prompt
           (optionsWithDefaults (Some (streamOptions (ofCaller <$> co))))) calls (inl e) →
  answered (hookOf co) s calls →
  ∃ ys s' t,
    createCompletionGenerator provider prompt (ofCaller <$> co) sched s =
      (ys, IterPending, s', t) ∧
    token_calls t = calls ∧
    joined ys = joined (map text calls.*1) ∧
    Forall (λ y : string, y ≠ "") ys ∧
    (Forall (λ k, k = 0) sched → (length calls ≤ length sched)%nat →
       ys = nonblank (map text calls.*1)) ∧
    (PushNull ∉ t) ∧ (EmitEnd ∉ t).
Proof.
  intros Hal Hans.
  destruct (createCompletionGenerator_against provider prompt co sched s calls (inl e)
              Hal Hans) as (s' & t & Hrun & Htc & _ & Hopen).
  eexists _, s', t. split; [exact Hrun|]. split; [done|].
  split; [by rewrite joined_reads, joined_nonblank|].
  split; [apply reads_nonblank, nonblank_all|].
  split; [|by apply (Hopen e)].
  intros Hsched Hlen. apply reads_one_by_one; [done|].
  etrans; [apply length_filter|]. by rewrite length_map, length_fmap.
Qed.

End GeneratorMore.

Lemma createCompletionGenerator_starts_once_witness :
  (@iterate nat sampleImports abcProvider "hi" None 1 GenStart 0).1.1 = (["abc"], None).
Proof.
  destruct (proj2 (@createCompletionGenerator_starts_once nat sampleImports abcProvider "hi"
              None 0 _ _ _ eq_refl) 1 ltac:(lia)) as (fin & Hit & Hnone & _).
  rewrite (proj2 Hnone ltac:(by split)) in Hit.
  exact (f_equal (λ x, x.1.1) Hit).
Defined.

Lemma createCompletionGenerator_returns_witness :
  ∃ ys r, (@createCompletionGenerator nat sampleImports abcProvider "hi" None [1] 0).1.1 =
            (ys, IterReturn r) ∧
          joined ys = "abc" ∧ content (message r) = "abc" ∧
          completion_tokens (usage r) = 3.
Proof.
  edestruct (@createCompletionGenerator_returns nat sampleImports abcProvider "hi" None [1] 0
               [(unit_ 1 "a" "a", true); (unit_ 2 "b" "ab", true); (unit_ 3 "c" "abc", true)]
               "abc")
    as (ys & r & s' & t & Hrun & _ & Hj & _ & _ & Hc & Hn & _).
  - along_path.
  - cbn. tauto.
  - exists ys, r. split; [exact (f_equal (λ x, x.1.1) Hrun)|].
    split; [exact Hj|]. split; [exact Hc|exact Hn].
Defined.

Lemma createCompletionGenerator_pending_witness :
  ∃ ys, (@createCompletionGenerator nat sampleImports failingProvider "hi" None [] 0).1.1 =
          (ys, IterPending) ∧ joined ys = "a".
Proof.
  edestruct (@createCompletionGenerator_pending nat sampleImports failingProvider "hi" None
               [] 0 [(unit_ 1 "a" "a", true)] (Error "out of memory"))
    as (ys & s' & t & Hrun & _ & Hj & _).
  - along_path.
  - cbn. tauto.
  - exists ys. split; [exact (f_equal (λ x, x.1.1) Hrun)|exact Hj].
Defined.

(** ** Stopping a completion *)

(** X19. With a provider that stops when told, the unit at which the
    caller's hook returns [false] is the last one: if that is call number
    [k] (from 0), the provider emitted [k + 1] units, the hook was called
    [k + 1] times, and a result, if there is one, has
    [completion_tokens = k + 1]. *)
Theorem createCompletion_stops_at_false {US} `{Imports} (provider : Provider US) prompt
    (co : option (CompletionOptions US)) s out s' t k :
  (∀ p o, stops_when_told (generate provider p o) = true) →
  createCompletion provider prompt (ofCaller <$> co) s = (out, s', t) →
  hook_returns t !! k = Some (VBool false) →
  length (units t) = S k ∧
  length (hook_returns t) = S k ∧
  (∀ r, out = Resolved r → completion_tokens (usage r) = S k).
Proof.
  intros Hstop.
  destruct (createCompletion_caller provider prompt co s)
    as (calls & leaf & s'' & Hrun & Hal & Hf).
  rewrite Hrun. intros [= <- <- <-].
  set (t := Generate prompt :: _).
  assert (token_calls t = map (λ c, (c.1, flagOf c.2)) calls) as Htok.
  { unfold t. change (token_calls (Generate prompt :: ?l)) with (token_calls l).
    rewrite token_calls_app, token_calls_callsEvents. apply app_nil_r. }
  assert (hook_calls t = omap (λ c, pair c.1 <$> c.2) calls) as Hhook.
  { unfold t. change (hook_calls (Generate prompt :: ?l)) with (hook_calls l).
    rewrite hook_calls_app, hook_calls_callsEvents. apply app_nil_r. }
  unfold hook_returns, units. rewrite Htok, Hhook. intros Hk.
  assert (Forall (λ c, is_Some c.2) calls) as Hall.
  { destruct (hookOf co) as [h|] eqn:Hh.
    - eapply Forall_impl; [exact Hf|]. intros c Hc. by apply Hc.
    - exfalso. assert (Forall (λ c, c.2 = None) calls) as Hnone.
      { eapply Forall_impl; [exact Hf|]. intros c Hc.
        destruct (c.2) as [r|] eqn:Hr; [|done].
        destruct (proj1 Hc) as [? [=]]. by eexists. }
      apply unhooked_calls in Hnone as [Hnil _]. by rewrite Hnil in Hk. }
  assert (length (omap (λ c, pair c.1 <$> c.2) calls) = length calls) as Hlen.
  { rewrite <- (length_map (λ c, (c.1, negb (is_false c.2)))).
    rewrite <- (hooked_calls calls Hall). by rewrite length_map. }
  rewrite (hooked_calls calls Hall) in Hal.
  set (hc := omap (λ c, pair c.1 <$> c.2) calls) in *.
  rewrite list_lookup_fmap in Hk.
  destruct (hc !! k) as [[ev r]|] eqn:Hhc; [|done].
  cbn in Hk. injection Hk as ->.
  assert (length hc = S k) as Hk1.
  { pose proof (take_drop_middle _ _ _ Hhc) as Hsplit.
    rewrite <- Hsplit in Hal. rewrite map_app in Hal. cbn in Hal.
    pose proof (stops_when_told_along _ _ _ (Hstop _ _) Hal _ _ _ eq_refl) as Hpost.
    apply fmap_nil_inv in Hpost.
    rewrite <- Hsplit, Hpost, length_app, length_take. cbn.
    apply lookup_lt_Some in Hhc. lia. }
  rewrite !length_map. split; [lia|]. split; [done|].
  intros r0 Hr0. destruct leaf; simplify_eq/=. lia.
Qed.

Lemma createCompletion_stops_at_false_witness :
  length (units (@createCompletion nat sampleImports abcProvider "hi"
            (Some (ofCaller {| co_props := ∅; co_onToken := Some stopAtSecond |})) 0).2) = 2.
Proof.
  refine (proj1 (@createCompletion_stops_at_false nat sampleImports abcProvider "hi"
            (Some {| co_props := ∅; co_onToken := Some stopAtSecond |}) 0 _ _ _ 1
            (λ _ _, eq_refl) eq_refl _)).
  reflexivity.
Defined.
